(** * Knowledge-based Minesweeper player: [Sentence] and [MinesweeperAI]

    Shallow embedding of [src/minesweeper/minesweeper.py].  Python sets of
    cells are finite sets [gset Cell]; the knowledge base is the Python list
    of sentences, in order.  Every entry of that list is an object of its
    own (a sentence is appended right after it is built and never stored
    twice), so in-place mutation of the sentences of the list is a [map]
    over the list. *)

From stdpp Require Import gmap list sets.

Local Open Scope Z_scope.

(** ** Cells and sentences *)

Abbreviation Cell := (Z * Z)%type.

(** Python leaves the iteration order of a set unspecified.  [set_iter]
    fixes one order; the lemmas below use only that it lists every member
    exactly once. *)
Definition set_iter (X : gset Cell) : list Cell := elements X.

(** [len] of a Python set, as a Python integer. *)
Definition len (X : gset Cell) : Z := Z.of_nat (size X).

(** [class Sentence]: [self.cells] and [self.count]. *)
Record Sentence := mkSentence { cells : gset Cell; count : Z }.

(** [Sentence.__eq__]: same cells and same count. *)
Global Instance Sentence_eq_dec : EqDecision Sentence.
Proof. solve_decision. Defined.

Module Sentence.

(** [Sentence.known_mines]: a query returns its result and the receiver
    as the call leaves it. *)
Definition known_mines (self : Sentence) : gset Cell * Sentence :=
  if bool_decide (len (cells self) = count self) && bool_decide (count self > 0)
  then (cells self, self)
  else (∅, self).

(** [Sentence.known_safes]. *)
Definition known_safes (self : Sentence) : gset Cell * Sentence :=
  if bool_decide (count self = 0) && bool_decide (len (cells self) > 0)
  then (cells self, self)
  else (∅, self).

(** [Sentence.mark_mine]. *)
Definition mark_mine (self : Sentence) (cell : Cell) : Sentence :=
  if decide (cell ∈ cells self)
  then {| cells := cells self ∖ {[cell]}; count := count self - 1 |}
  else self.

(** [Sentence.mark_safe]. *)
Definition mark_safe (self : Sentence) (cell : Cell) : Sentence :=
  if decide (cell ∈ cells self)
  then {| cells := cells self ∖ {[cell]}; count := count self |}
  else self.

End Sentence.

(** ** The player *)

(** [class MinesweeperAI]. *)
Record AI := mkAI {
  height : Z;
  width : Z;
  moves_made : gset Cell;
  mines : gset Cell;
  safes : gset Cell;
  knowledge : list Sentence
}.

(** [MinesweeperAI.__init__]. *)
Definition init (h w : Z) : AI :=
  {| height := h; width := w; moves_made := ∅; mines := ∅; safes := ∅;
     knowledge := [] |}.

Definition set_knowledge (st : AI) (kb : list Sentence) : AI :=
  {| height := height st; width := width st; moves_made := moves_made st;
     mines := mines st; safes := safes st; knowledge := kb |}.

(** [MinesweeperAI.mark_mine]. *)
Definition mark_mine (self : AI) (cell : Cell) : AI :=
  {| height := height self; width := width self;
     moves_made := moves_made self;
     mines := {[cell]} ∪ mines self;
     safes := safes self;
     knowledge := (λ s, Sentence.mark_mine s cell) <$> knowledge self |}.

(** [MinesweeperAI.mark_safe]. *)
Definition mark_safe (self : AI) (cell : Cell) : AI :=
  {| height := height self; width := width self;
     moves_made := moves_made self;
     mines := mines self;
     safes := {[cell]} ∪ safes self;
     knowledge := (λ s, Sentence.mark_safe s cell) <$> knowledge self |}.

(** [MinesweeperAI.make_safe_move]: the loop over [self.safes] returns at
    the first cell that is not in [moves_made]; [None] when it runs out. *)
Fixpoint first_unmoved (moves : gset Cell) (l : list Cell) : option Cell :=
  match l with
  | [] => None
  | safe_cell :: l =>
      if decide (safe_cell ∉ moves) then Some safe_cell
      else first_unmoved moves l
  end.

Definition make_safe_move (self : AI) : option Cell * AI :=
  (first_unmoved (moves_made self) (set_iter (safes self)), self).

(** ** [MinesweeperAI.add_knowledge] *)

(** [range(x - 1, x + 2)] crossed with [range(y - 1, y + 2)], in loop order. *)
Definition around (cell : Cell) : list Cell :=
  i ← [cell.1 - 1; cell.1; cell.1 + 1];
  j ← [cell.2 - 1; cell.2; cell.2 + 1];
  [(i, j)].

(** Body of the neighbour loop, on the pair [(neighbors, count)]. *)
Definition scan_step (self : AI) (cell : Cell)
    (acc : gset Cell * Z) (nb : Cell) : gset Cell * Z :=
  if decide (nb = cell) then acc
  else if bool_decide (0 ≤ nb.1 < height self) && bool_decide (0 ≤ nb.2 < width self)
  then
    if bool_decide (nb ∉ moves_made self) && bool_decide (nb ∉ safes self)
       && bool_decide (nb ∉ mines self)
    then ({[nb]} ∪ acc.1, acc.2)
    else if bool_decide (nb ∈ mines self) then (acc.1, acc.2 - 1)
    else acc
  else acc.

Definition scan (self : AI) (cell : Cell) (count : Z) : gset Cell * Z :=
  foldl (scan_step self cell) (∅, count) (around cell).

(** [self.moves_made.add(cell)]. *)
Definition add_move (self : AI) (cell : Cell) : AI :=
  {| height := height self; width := width self;
     moves_made := {[cell]} ∪ moves_made self;
     mines := mines self; safes := safes self;
     knowledge := knowledge self |}.

(** The statements of [add_knowledge] before the [while] loop. *)
Definition observe (self : AI) (cell : Cell) (count : Z) : AI :=
  let self := add_move self cell in
  let self := mark_safe self cell in
  let '(neighbors, count) := scan self cell count in
  if bool_decide (len neighbors > 0) then
    let new_sentence := mkSentence neighbors count in
    if decide (new_sentence ∈ knowledge self) then self
    else set_knowledge self (knowledge self ++ [new_sentence])
  else self.

(** [new_mines.update(...)] / [new_safes.update(...)] over the knowledge. *)
Definition collect (f : Sentence → gset Cell * Sentence)
    (kb : list Sentence) : gset Cell :=
  foldl (λ acc s, acc ∪ (f s).1) ∅ kb.

(** Bodies of the two marking loops, on [(self, update_needed)]. *)
Definition mark_new_mine (st : AI * bool) (mine : Cell) : AI * bool :=
  if decide (mine ∉ mines st.1) then (mark_mine st.1 mine, true) else st.

Definition mark_new_safe (st : AI * bool) (safe : Cell) : AI * bool :=
  if decide (safe ∉ safes st.1) then (mark_safe st.1 safe, true) else st.

(** Body of the loop over [sentence.cells], on [(cells_to_remove, count)]. *)
Definition reduce_step (self : AI) (acc : gset Cell * Z) (c : Cell)
    : gset Cell * Z :=
  if decide (c ∈ safes self) then ({[c]} ∪ acc.1, acc.2)
  else if decide (c ∈ mines self) then ({[c]} ∪ acc.1, acc.2 - 1)
  else acc.

(** One sentence after the removal of its classified cells;
    [cells_to_remove] holds members of [sentence.cells] only, so removing
    them one by one is the set difference. *)
Definition reduce (self : AI) (s : Sentence) : Sentence :=
  let r := foldl (reduce_step self) (∅, count s) (set_iter (cells s)) in
  {| cells := cells s ∖ r.1; count := r.2 |}.

(** [new_knowledge_base]: the reduced sentences that still have cells. *)
Definition prune (self : AI) : list Sentence :=
  filter (λ s, len (cells s) > 0) (reduce self <$> knowledge self).

(** Body of the inner loop of the subset inference, on [new_inferences]. *)
Definition infer_step (kb : list Sentence) (s1 : Sentence)
    (new_inferences : list Sentence) (s2 : Sentence) : list Sentence :=
  if decide (s1 = s2) then new_inferences
  else if decide (cells s1 ⊆ cells s2) then
    if decide (cells s1 ≠ cells s2) then
      let inferred_cells := cells s2 ∖ cells s1 in
      let inferred_count := count s2 - count s1 in
      if bool_decide (len inferred_cells > 0) && bool_decide (inferred_count >= 0)
         && bool_decide (inferred_count ≤ len inferred_cells)
      then
        let new_sentence := mkSentence inferred_cells inferred_count in
        if bool_decide (new_sentence ∉ kb) && bool_decide (new_sentence ∉ new_inferences)
        then new_inferences ++ [new_sentence]
        else new_inferences
      else new_inferences
    else new_inferences
  else new_inferences.

Definition infer (kb : list Sentence) : list Sentence :=
  foldl (λ acc s1, foldl (infer_step kb s1) acc kb) [] kb.

(** The two marking loops of an iteration, from [update_needed = False]. *)
Definition mark_all (self : AI) : AI * bool :=
  let new_mines := collect Sentence.known_mines (knowledge self) in
  let new_safes := collect Sentence.known_safes (knowledge self) in
  let st := foldl mark_new_mine (self, false) (set_iter new_mines) in
  foldl mark_new_safe st (set_iter new_safes).

(** One iteration of the body of [while update_needed]; the second
    component is [update_needed] at the end of the iteration. *)
Definition pass (self : AI) : AI * bool :=
  let st := mark_all self in
  let new_knowledge_base := prune st.1 in
  let update_needed :=
    st.2 || bool_decide (length new_knowledge_base < length (knowledge st.1))%nat in
  let new_inferences := infer new_knowledge_base in
  let update_needed := update_needed || bool_decide (new_inferences ≠ []) in
  (set_knowledge st.1 (new_knowledge_base ++ new_inferences), update_needed).

(** The [while] loop, run for at most [fuel] iterations: [None] when the
    fuel runs out before an iteration leaves [update_needed] false. *)
Fixpoint loop (fuel : nat) (self : AI) : option AI :=
  match fuel with
  | O => None
  | S fuel =>
      let st := pass self in
      if st.2 then loop fuel st.1 else Some st.1
  end.

Definition add_knowledge (fuel : nat) (self : AI) (cell : Cell) (count : Z)
    : option AI :=
  loop fuel (observe self cell count).

(** ** [MinesweeperAI.make_random_move] *)

(** [range(n)]: empty when [n] is not positive. *)
Definition range (n : Z) : list Z := seqZ 0 n.

(** [available_moves], in the order in which the two loops append. *)
Definition available_moves (self : AI) : list Cell :=
  i ← range (height self);
  j ← range (width self);
  if bool_decide ((i, j) ∉ moves_made self) && bool_decide ((i, j) ∉ mines self)
  then [(i, j)] else [].

(** [random.choice(available_moves)] is [available_moves[k]] for the index
    [k] below [len(available_moves)] that the generator draws; the draw is
    the argument [k]. *)
Definition make_random_move (k : nat) (self : AI) : option Cell * AI :=
  match available_moves self with
  | [] => (None, self)
  | _ :: _ => (available_moves self !! k, self)
  end.

(** ** [Minesweeper.__init__]: the placement of the mines *)

(** The board of [False] that the two loops over [range(self.height)] and
    [range(self.width)] build. *)
Definition empty_board (h w : Z) : list (list bool) :=
  replicate (Z.to_nat h) (replicate (Z.to_nat w) false).

(** [self.board[i][j]] for indices that are not negative; [None] stands
    for Python's [IndexError]. *)
Definition board_get (board : list (list bool)) (i j : Z) : option bool :=
  row ← board !! Z.to_nat i; row !! Z.to_nat j.

(** [self.board[i][j] = True]. *)
Definition board_set (board : list (list bool)) (i j : Z) : list (list bool) :=
  alter (λ row, <[Z.to_nat j := true]> row) (Z.to_nat i) board.

(** How the placement loop ends.  [random.randrange(n)] raises
    [ValueError] when [n] is not positive and returns some number from [0]
    to [n - 1] otherwise; the numbers that it returns are an argument of
    the model, the list [draws] of the pairs [(i, j)] drawn one iteration
    after the other.  [Pending] says that the loop has used all the draws
    and still runs; [BadDraw] that a draw is not one that [randrange] can
    return. *)
Inductive Placement :=
  | Placed (mines : gset Cell) (board : list (list bool))
  | ValueError
  | BadDraw
  | Pending.

(** The loop [while len(self.mines) != mines]. *)
Fixpoint place (h w target : Z) (draws : list Cell)
    (mines : gset Cell) (board : list (list bool)) : Placement :=
  if bool_decide (len mines = target) then Placed mines board
  else if bool_decide (h ≤ 0 ∨ w ≤ 0) then ValueError
  else
    match draws with
    | [] => Pending
    | (i, j) :: draws =>
        if bool_decide (0 ≤ i < h ∧ 0 ≤ j < w) then
          match board_get board i j with
          | Some false =>
              place h w target draws ({[(i, j)]} ∪ mines) (board_set board i j)
          | Some true => place h w target draws mines board
          | None => BadDraw
          end
        else BadDraw
    end.

(** [Minesweeper.__init__], up to the fields [self.mines] and
    [self.board]. *)
Definition new_game (h w target : Z) (draws : list Cell) : Placement :=
  place h w target draws ∅ (empty_board h w).

(** ** The board that answers the probes *)

(** [Minesweeper.nearby_mines] on a board of [h] rows and [w] columns;
    [board] is the set of cells [(i, j)] with [self.board[i][j]] true. *)
Definition nearby_mines (h w : Z) (board : gset Cell) (cell : Cell) : Z :=
  foldl (λ count nb,
           if decide (nb = cell) then count
           else if bool_decide (0 ≤ nb.1 < h) && bool_decide (0 ≤ nb.2 < w)
           then if decide (nb ∈ board) then count + 1 else count
           else count)
        0 (around cell).

(** ** Sequences of calls *)

(** The public operations of the player that change its state. *)
Inductive Call :=
  | AddKnowledge (cell : Cell) (count : Z)
  | MarkMine (cell : Cell)
  | MarkSafe (cell : Cell).

Definition call (fuel : nat) (self : AI) (op : Call) : option AI :=
  match op with
  | AddKnowledge cell count => add_knowledge fuel self cell count
  | MarkMine cell => Some (mark_mine self cell)
  | MarkSafe cell => Some (mark_safe self cell)
  end.

(** The calls of a list, one after the other; every [while] loop gets
    [fuel] iterations. *)
Fixpoint calls (fuel : nat) (self : AI) (ops : list Call) : option AI :=
  match ops with
  | [] => Some self
  | op :: ops =>
      match call fuel self op with
      | Some self => calls fuel self ops
      | None => None
      end
  end.

(** A state that a fresh player reaches through public calls. *)
Definition reachable (st : AI) : Prop :=
  ∃ (h w : Z) (fuel : nat) (ops : list Call),
    calls fuel (init h w) ops = Some st.

(** A call that tells the truth about the board [board] of [h] rows and
    [w] columns: a probed cell is not a mine and comes with the number of
    mines around it, a cell marked as a mine is one, a cell marked as safe
    is not. *)
Definition truthful (h w : Z) (board : gset Cell) (op : Call) : Prop :=
  match op with
  | AddKnowledge cell count =>
      cell ∉ board ∧ count = nearby_mines h w board cell
  | MarkMine cell => cell ∈ board
  | MarkSafe cell => cell ∉ board
  end.

(** ** Vocabulary of the statements *)

(** The sentence that the subset inference builds from [s1] and [s2]:
    cells [s2.cells - s1.cells], count [s2.count - s1.count]. *)
Definition derived (s1 s2 : Sentence) : Sentence :=
  mkSentence (cells s2 ∖ cells s1) (count s2 - count s1).

(** A count that fits its cell set. *)
Definition in_range (s : Sentence) : Prop :=
  0 ≤ count s ≤ len (cells s).

(** The pair [s1], [s2] yields the new inference [d] against the
    knowledge [kb]: [s1.cells] is a strict subset of [s2.cells], [d] is the
    difference, its count fits, and [kb] has no equal sentence. *)
Definition yields (kb : list Sentence) (s1 s2 d : Sentence) : Prop :=
  cells s1 ⊂ cells s2 ∧ d = derived s1 s2 ∧ in_range d ∧ d ∉ kb.

(** No sentence names a classified cell. *)
Definition clean (st : AI) : Prop :=
  ∀ s, s ∈ knowledge st → cells s ## safes st ∪ mines st.

(** In addition no sentence is empty. *)
Definition tidy (st : AI) : Prop :=
  ∀ s, s ∈ knowledge st → cells s ## safes st ∪ mines st ∧ cells s ≠ ∅.

(** All cells that the knowledge names. *)
Definition named (kb : list Sentence) : gset Cell :=
  ⋃ (cells <$> kb).

(** The soundness property of the knowledge: every count fits its cell
    set and no sentence names a classified cell. *)
Definition sound (st : AI) : Prop :=
  ∀ s, s ∈ knowledge st → in_range s ∧ cells s ## safes st ∪ mines st.

(** The state agrees with the board: known mines are mines, known safe
    cells are not, every move was to a safe cell, and every sentence
    counts the mines of the board among its cells, none of them
    classified. *)
Definition agrees (board : gset Cell) (st : AI) : Prop :=
  mines st ⊆ board ∧ safes st ## board ∧ moves_made st ⊆ safes st ∧
  ∀ s, s ∈ knowledge st →
    count s = len (cells s ∩ board) ∧ cells s ## safes st ∪ mines st.

(** The in-bounds cells around [cell]. *)
Definition in_grid (h w : Z) (cell nb : Cell) : Prop :=
  nb ≠ cell ∧ 0 ≤ nb.1 < h ∧ 0 ≤ nb.2 < w.

Global Instance in_grid_dec h w cell nb : Decision (in_grid h w cell nb).
Proof. unfold in_grid. apply _. Defined.

Definition neighbours (h w : Z) (cell : Cell) : gset Cell :=
  list_to_set (filter (in_grid h w cell) (around cell)).

(** The sets only grow from [st] to [st']. *)
Definition grows (st st' : AI) : Prop :=
  moves_made st ⊆ moves_made st' ∧ safes st ⊆ safes st' ∧
  mines st ⊆ mines st'.

(** Every move was to a safe cell and no sentence names a classified
    cell. *)
Definition well_formed (st : AI) : Prop :=
  moves_made st ⊆ safes st ∧ clean st.

(** The sentence that [add_knowledge] builds for [cell] and [count] in the
    state [st], before it looks at whether the sentence has cells. *)
Definition probe_sentence (st : AI) (cell : Cell) (count : Z) : Sentence :=
  mkSentence (scan st cell count).1 (scan st cell count).2.

(** The probe of [cell] with [count] is on record: the cell is a move and
    safe, and the sentence of the probe, as the current state gives it, is
    in the knowledge unless it has no cells. *)
Definition recorded (cell : Cell) (count : Z) (st : AI) : Prop :=
  cell ∈ moves_made st ∧ cell ∈ safes st ∧
  (cells (probe_sentence st cell count) ≠ ∅ →
   probe_sentence st cell count ∈ knowledge st).

(** From [st] to the later state [st'] no safe cell has become a mine and
    no mine has become safe. *)
Definition keeps_classes (st st' : AI) : Prop :=
  (∀ c, c ∈ safes st → c ∈ mines st' → c ∈ mines st) ∧
  (∀ c, c ∈ mines st → c ∈ safes st' → c ∈ safes st).

(** The sentence [s] is true of the board: its count is the number of
    mines of the board among its cells. *)
Definition true_on (board : gset Cell) (s : Sentence) : Prop :=
  count s = len (cells s ∩ board).

(** The neighbours of [cell] that the state has not classified and that
    are not moves. *)
Definition undetermined (st : AI) (cell : Cell) : gset Cell :=
  neighbours (height st) (width st) cell
  ∖ (moves_made st ∪ safes st ∪ mines st).

(** The board has [h] rows of [w] entries, and its true entries are the
    cells of [mines], all of them on the board. *)
Definition board_of (h w : Z) (mines : gset Cell) (board : list (list bool))
    : Prop :=
  length board = Z.to_nat h ∧
  Forall (λ row, length row = Z.to_nat w) board ∧
  (∀ c, c ∈ mines → 0 ≤ c.1 < h ∧ 0 ≤ c.2 < w) ∧
  (∀ i j, 0 ≤ i < h → 0 ≤ j < w →
     board_get board i j = Some (bool_decide ((i, j) ∈ mines))).

(** All cells of a board of [h] rows and [w] columns. *)
Definition grid (h w : Z) : list Cell :=
  i ← range h; j ← range w; [(i, j)].

(** ** Example games *)

(** Three probes on a board of three rows and two columns whose only mine
    is at [(1, 0)], and the state they lead to. *)
Definition example_board : gset Cell := {[ (1, 0) ]}.

Definition example_probes : list Call :=
  [AddKnowledge (0, 0) 1; AddKnowledge (0, 1) 1; AddKnowledge (2, 0) 1].

Definition example_state : AI :=
  {| height := 3; width := 2;
     moves_made := {[ (0, 0); (0, 1); (2, 0) ]};
     mines := ∅;
     safes := {[ (0, 0); (0, 1); (2, 0); (2, 1) ]};
     knowledge := [ mkSentence {[ (1, 0); (1, 1) ]} 1;
                    mkSentence {[ (1, 0); (1, 1) ]} 1 ] |}.

(** The state after the first two of these probes. *)
Definition example_midstate : AI :=
  {| height := 3; width := 2;
     moves_made := {[ (0, 0); (0, 1) ]};
     mines := ∅;
     safes := {[ (0, 0); (0, 1) ]};
     knowledge := [ mkSentence {[ (1, 0); (1, 1) ]} 1 ] |}.

(** A game on a board of one row and four columns whose only mine is at
    [(0, 2)]: two probes that find the mine, the state they lead to, then a
    probe beside the mine and a flag on it, and the state after these. *)
Definition flagging_board : gset Cell := {[ (0, 2) ]}.

Definition flagging_calls_before : list Call :=
  [AddKnowledge (0, 0) 0; AddKnowledge (0, 1) 1].

Definition flagging_state_before : AI :=
  {| height := 1; width := 4;
     moves_made := {[ (0, 0); (0, 1) ]};
     mines := {[ (0, 2) ]};
     safes := {[ (0, 0); (0, 1) ]};
     knowledge := [] |}.

Definition flagging_calls_after : list Call :=
  [AddKnowledge (0, 3) 1; MarkMine (0, 2)].

Definition flagging_state_after : AI :=
  {| height := 1; width := 4;
     moves_made := {[ (0, 0); (0, 1); (0, 3) ]};
     mines := {[ (0, 2) ]};
     safes := {[ (0, 0); (0, 1); (0, 3) ]};
     knowledge := [] |}.

(** Two probes on a board of one row and two columns that no placement of
    mines explains: the second probes the cell that the first proved to be
    a mine. *)
Definition contradicting_probes : list Call :=
  [AddKnowledge (0, 0) 1; AddKnowledge (0, 1) 0].

(** A count of two for a cell with one neighbour, then a probe of that
    neighbour. *)
Definition overcounting_probes : list Call :=
  [AddKnowledge (0, 0) 2; AddKnowledge (0, 1) 0].

(** ** Measure of the [while] loop *)

(** All subsets of the cells of a list. *)
Fixpoint subsets (l : list Cell) : list (gset Cell) :=
  match l with
  | [] => [∅]
  | c :: l => subsets l ++ ((λ X, {[c]} ∪ X) <$> subsets l)
  end.

(** The sentences over the cells [U] whose count is between [0] and [|U|]:
    every sentence that the subset inference can build from sentences over
    [U] is one of them. *)
Definition candidates (U : gset Cell) : list Sentence :=
  X ← subsets (elements U);
  k ← seqZ 0 (len U + 1);
  [mkSentence X k].

(** How many candidates the knowledge lacks. *)
Definition missing (kb : list Sentence) : nat :=
  length (filter (λ d, d ∉ kb) (candidates (named kb))).

(** * Properties *)

(** ** Iteration over a set *)

Lemma set_iter_elem (X : gset Cell) (c : Cell) : c ∈ set_iter X ↔ c ∈ X.
Proof. unfold set_iter. apply elem_of_elements. Qed.

Lemma set_iter_NoDup (X : gset Cell) : NoDup (set_iter X).
Proof. unfold set_iter. apply NoDup_elements. Qed.

Lemma set_iter_empty (X : gset Cell) : set_iter X = [] ↔ X = ∅.
Proof.
  unfold set_iter. split.
  - intros H. apply elements_empty_inv in H. by apply leibniz_equiv.
  - intros ->. apply elements_empty.
Qed.

Lemma len_nonneg (X : gset Cell) : 0 ≤ len X.
Proof. unfold len. lia. Qed.

Lemma len_pos (X : gset Cell) : len X > 0 ↔ X ≠ ∅.
Proof.
  unfold len. split.
  - intros H ->. rewrite size_empty in H. lia.
  - intros H. assert (size X ≠ 0%nat); [|lia].
    apply size_non_empty_iff. by intros ?%leibniz_equiv.
Qed.

Lemma len_zero (X : gset Cell) : len X = 0 ↔ X = ∅.
Proof.
  unfold len. split.
  - intros H. apply leibniz_equiv, size_empty_iff. lia.
  - intros ->. by rewrite size_empty.
Qed.

Lemma len_pair (A B : Cell) : A ≠ B → len ({[A; B]} : gset Cell) = 2.
Proof.
  intros H. unfold len. rewrite size_union by set_solver.
  by rewrite !size_singleton.
Qed.

(** ** Loops as folds *)

Lemma foldl_invariant {A B} (P : A → Prop) (f : A → B → A) (l : list B) (a : A) :
  P a → (∀ a x, x ∈ l → P a → P (f a x)) → P (foldl f a l).
Proof.
  revert a. induction l as [|x l IH]; intros a Ha Hstep; simpl; [done|].
  apply IH.
  - apply Hstep; [left|done].
  - intros a' y Hy. apply Hstep. by right.
Qed.

Lemma filter_full {A} (P : A → Prop) `{∀ x, Decision (P x)} (l : list A) :
  (length l ≤ length (filter P l))%nat → filter P l = l.
Proof.
  induction l as [|x l IH]; [done|].
  rewrite filter_cons. case_decide; simpl; intros Hl.
  - f_equal. apply IH. lia.
  - pose proof (length_filter P l). lia.
Qed.

Lemma collect_elem f kb c :
  c ∈ collect f kb ↔ ∃ s, s ∈ kb ∧ c ∈ (f s).1.
Proof.
  unfold collect.
  assert (H : ∀ acc, c ∈ foldl (λ acc s, acc ∪ (f s).1) acc kb ↔
                     c ∈ acc ∨ ∃ s, s ∈ kb ∧ c ∈ (f s).1).
  { induction kb as [|s kb IH]; intros acc; simpl.
    - split; [auto|]. intros [?|(s&Hs&_)]; [done|]. by apply elem_of_nil in Hs.
    - rewrite IH, elem_of_union. split.
      + intros [[?|?]|(s'&?&?)]; [auto|right..].
        * exists s. split; [left|done].
        * exists s'. split; [by right|done].
      + intros [?|(s'&[ ->|?]%elem_of_cons&?)]; [auto|auto|].
        right. by exists s'. }
  rewrite H. set_solver.
Qed.

(** ** Sentences *)

Section sentence_queries.
Implicit Types s : Sentence.

Lemma known_mines_fst s :
  (Sentence.known_mines s).1 =
  if decide (count s > 0 ∧ count s = len (cells s)) then cells s else ∅.
Proof.
  unfold Sentence.known_mines.
  repeat case_bool_decide; case_decide; simpl; try done; lia.
Qed.

Lemma known_safes_fst s :
  (Sentence.known_safes s).1 =
  if decide (count s = 0 ∧ len (cells s) > 0) then cells s else ∅.
Proof.
  unfold Sentence.known_safes.
  repeat case_bool_decide; case_decide; simpl; try done; lia.
Qed.

Lemma known_mines_snd s : (Sentence.known_mines s).2 = s.
Proof. unfold Sentence.known_mines. by case_match. Qed.

Lemma known_safes_snd s : (Sentence.known_safes s).2 = s.
Proof. unfold Sentence.known_safes. by case_match. Qed.

Lemma known_mines_elem s c :
  c ∈ (Sentence.known_mines s).1 ↔
  c ∈ cells s ∧ count s > 0 ∧ count s = len (cells s).
Proof. rewrite known_mines_fst. case_decide; set_solver. Qed.

Lemma known_safes_elem s c :
  c ∈ (Sentence.known_safes s).1 ↔
  c ∈ cells s ∧ count s = 0.
Proof.
  rewrite known_safes_fst. case_decide as H.
  - set_solver.
  - split; [set_solver|]. intros [Hc H0]. exfalso. apply H. split; [done|].
    apply len_pos. set_solver.
Qed.
End sentence_queries.

(** C7.  [known_mines] returns the whole cell set when [count > 0] and
    [count = |cells|] and the empty set otherwise; [known_safes] returns the
    whole cell set when [count = 0] and [|cells| > 0] and the empty set
    otherwise; in both cases the condition is exactly the one under which a
    non-empty set comes back.  Neither query changes the sentence.  For two
    distinct cells [A], [B]: count 2 gives [known_mines = {A,B}], count 0
    gives [known_safes = {A,B}], count 1 gives two empty sets. *)
Theorem known_mines_known_safes_spec :
  ∀ s : Sentence,
    let km := Sentence.known_mines s in
    let ks := Sentence.known_safes s in
    ((count s > 0 ∧ count s = len (cells s)) → km.1 = cells s) ∧
    (¬ (count s > 0 ∧ count s = len (cells s)) → km.1 = ∅) ∧
    (km.1 ≠ ∅ ↔ count s > 0 ∧ count s = len (cells s)) ∧
    ((count s = 0 ∧ len (cells s) > 0) → ks.1 = cells s) ∧
    (¬ (count s = 0 ∧ len (cells s) > 0) → ks.1 = ∅) ∧
    (ks.1 ≠ ∅ ↔ count s = 0 ∧ len (cells s) > 0) ∧
    km.2 = s ∧ ks.2 = s ∧
    (∀ A B : Cell, A ≠ B →
       (Sentence.known_mines (mkSentence {[A; B]} 2)).1 = {[A; B]} ∧
       (Sentence.known_safes (mkSentence {[A; B]} 0)).1 = {[A; B]} ∧
       (Sentence.known_mines (mkSentence {[A; B]} 1)).1 = ∅ ∧
       (Sentence.known_safes (mkSentence {[A; B]} 1)).1 = ∅).
Proof.
  intros s km ks. subst km ks.
  rewrite known_mines_snd, known_safes_snd.
  rewrite known_mines_fst, known_safes_fst.
  split_and!; try done.
  - intros H. by rewrite decide_True.
  - intros H. by rewrite decide_False.
  - case_decide as H; [|naive_solver].
    split; [done|]. intros _ He. rewrite He in H.
    destruct H as [H1 H2]. rewrite H2 in H1. by apply len_pos in H1.
  - intros H. by rewrite decide_True.
  - intros H. by rewrite decide_False.
  - case_decide as H; [|naive_solver].
    split; [done|]. intros _. destruct H as [_ H]. by apply len_pos.
  - intros A B HAB. rewrite !known_mines_fst, !known_safes_fst. simpl.
    rewrite (len_pair A B HAB).
    split_and!; try case_decide; try done; lia.
Qed.

(** ** Propagation of a classification *)

(** C8.  [mark_mine X] adds [X] to [mines] and [mark_safe X] adds [X] to
    [safes]; the knowledge keeps its length and, position by position, a
    sentence that held [X] loses it, with its count lowered by one for a
    mine and kept for a safe cell, while a sentence that did not hold [X]
    stays as it was. *)
Theorem mark_mine_mark_safe_propagation :
  ∀ (st : AI) (X : Cell),
    mines (mark_mine st X) = {[X]} ∪ mines st ∧
    safes (mark_safe st X) = {[X]} ∪ safes st ∧
    length (knowledge (mark_mine st X)) = length (knowledge st) ∧
    length (knowledge (mark_safe st X)) = length (knowledge st) ∧
    ∀ (i : nat) (s : Sentence), knowledge st !! i = Some s →
      (X ∈ cells s →
         knowledge (mark_mine st X) !! i
           = Some (mkSentence (cells s ∖ {[X]}) (count s - 1)) ∧
         knowledge (mark_safe st X) !! i
           = Some (mkSentence (cells s ∖ {[X]}) (count s))) ∧
      (X ∉ cells s →
         knowledge (mark_mine st X) !! i = Some s ∧
         knowledge (mark_safe st X) !! i = Some s).
Proof.
  intros st X. simpl. rewrite !length_fmap. split_and!; try done.
  intros i s Hi. rewrite !list_lookup_fmap, Hi. simpl.
  unfold Sentence.mark_mine, Sentence.mark_safe.
  split; intros H; case_decide; done.
Qed.

(** ** Choosing a safe move *)

Lemma first_unmoved_Some moves l c :
  first_unmoved moves l = Some c → c ∈ l ∧ c ∉ moves.
Proof.
  induction l as [|x l IH]; simpl; [done|].
  case_decide.
  - intros [= ->]. split; [left|done].
  - intros H'. destruct (IH H'). split; [by right|done].
Qed.

Lemma first_unmoved_None moves l :
  first_unmoved moves l = None ↔ ∀ c, c ∈ l → c ∈ moves.
Proof.
  induction l as [|x l IH]; simpl.
  - split; [|done]. intros _ c Hc. by apply elem_of_nil in Hc.
  - case_decide as Hx.
    + split; [done|]. intros H. exfalso. apply Hx, H. left.
    + rewrite IH. split.
      * intros H c [->|Hc]%elem_of_cons; auto.
      * intros H c Hc. apply H. by right.
Qed.

(** C10.  [make_safe_move] leaves the player as it was; a returned cell is
    in [safes] and not in [moves_made]; a cell is returned whenever one
    such cell exists; and [None] comes back exactly when there is none. *)
Theorem make_safe_move_spec :
  ∀ st : AI,
    (make_safe_move st).2 = st ∧
    (∀ c, (make_safe_move st).1 = Some c → c ∈ safes st ∧ c ∉ moves_made st) ∧
    ((∃ c, c ∈ safes st ∧ c ∉ moves_made st) →
       ∃ c, (make_safe_move st).1 = Some c ∧ c ∈ safes st ∧ c ∉ moves_made st) ∧
    ((make_safe_move st).1 = None ↔
       ¬ ∃ c, c ∈ safes st ∧ c ∉ moves_made st).
Proof.
  intros st. unfold make_safe_move. simpl.
  assert (Hsome : ∀ c, first_unmoved (moves_made st) (set_iter (safes st)) = Some c →
                       c ∈ safes st ∧ c ∉ moves_made st).
  { intros c [H1 H2]%first_unmoved_Some. by apply set_iter_elem in H1. }
  assert (Hnone : first_unmoved (moves_made st) (set_iter (safes st)) = None ↔
                  ¬ ∃ c, c ∈ safes st ∧ c ∉ moves_made st).
  { rewrite first_unmoved_None. split.
    - intros H [c [Hc Hm]]. apply Hm, H. by apply set_iter_elem.
    - intros H c Hc%set_iter_elem.
      destruct (decide (c ∈ moves_made st)); [done|]. exfalso. eauto. }
  split_and!; try done.
  intros Hex.
  destruct (first_unmoved (moves_made st) (set_iter (safes st))) as [c|] eqn:E.
  - exists c. split; [done|]. by apply Hsome.
  - exfalso. by apply Hnone.
Qed.

(** ** The marking loops *)

Section marking.
Implicit Types (s : Sentence) (st : AI) (c : Cell) (l : list Cell).

Lemma sentence_mark_mine_cells s c :
  cells (Sentence.mark_mine s c) = cells s ∖ {[c]}.
Proof. unfold Sentence.mark_mine. case_decide; simpl; set_solver. Qed.

Lemma sentence_mark_safe_cells s c :
  cells (Sentence.mark_safe s c) = cells s ∖ {[c]}.
Proof. unfold Sentence.mark_safe. case_decide; simpl; set_solver. Qed.

Lemma sentence_mark_mine_absent s c :
  c ∉ cells s → Sentence.mark_mine s c = s.
Proof. intros H. unfold Sentence.mark_mine. by rewrite decide_False. Qed.

Lemma sentence_mark_safe_absent s c :
  c ∉ cells s → Sentence.mark_safe s c = s.
Proof. intros H. unfold Sentence.mark_safe. by rewrite decide_False. Qed.

Lemma mark_new_mine_fresh st u c :
  c ∉ mines st → mark_new_mine (st, u) c = (mark_mine st c, true).
Proof. intros H. unfold mark_new_mine. simpl. by rewrite decide_True. Qed.

Lemma mark_new_mine_known st u c :
  c ∈ mines st → mark_new_mine (st, u) c = (st, u).
Proof. intros H. unfold mark_new_mine. simpl. rewrite decide_False; auto. Qed.

Lemma mark_new_safe_fresh st u c :
  c ∉ safes st → mark_new_safe (st, u) c = (mark_safe st c, true).
Proof. intros H. unfold mark_new_safe. simpl. by rewrite decide_True. Qed.

Lemma mark_new_safe_known st u c :
  c ∈ safes st → mark_new_safe (st, u) c = (st, u).
Proof. intros H. unfold mark_new_safe. simpl. rewrite decide_False; auto. Qed.

Ltac mine_step st u c H :=
  cbn [foldl];
  destruct (decide (c ∈ mines st)) as [H|H];
  [rewrite (mark_new_mine_known st u c H)
  |rewrite (mark_new_mine_fresh st u c H)].

Ltac safe_step st u c H :=
  cbn [foldl];
  destruct (decide (c ∈ safes st)) as [H|H];
  [rewrite (mark_new_safe_known st u c H)
  |rewrite (mark_new_safe_fresh st u c H)].

(** What the loop over [new_mines] leaves: the sets. *)
Lemma fold_mark_mine_frame l st u :
  let r := (foldl mark_new_mine (st, u) l).1 in
  height r = height st ∧ width r = width st ∧
  moves_made r = moves_made st ∧ safes r = safes st ∧
  mines r = mines st ∪ list_to_set l.
Proof.
  revert st u. induction l as [|c l IH]; intros st u.
  - simpl. split_and!; try done. set_solver.
  - mine_step st u c Hc.
    + destruct (IH st u) as (?&?&?&?&Hm).
      split_and!; try done. rewrite Hm. set_solver.
    + destruct (IH (mark_mine st c) true) as (?&?&?&?&Hm).
      split_and!; try done. rewrite Hm. simpl. set_solver.
Qed.

Lemma fold_mark_safe_frame l st u :
  let r := (foldl mark_new_safe (st, u) l).1 in
  height r = height st ∧ width r = width st ∧
  moves_made r = moves_made st ∧ mines r = mines st ∧
  safes r = safes st ∪ list_to_set l.
Proof.
  revert st u. induction l as [|c l IH]; intros st u.
  - simpl. split_and!; try done. set_solver.
  - safe_step st u c Hc.
    + destruct (IH st u) as (?&?&?&?&Hm).
      split_and!; try done. rewrite Hm. set_solver.
    + destruct (IH (mark_safe st c) true) as (?&?&?&?&Hm).
      split_and!; try done. rewrite Hm. simpl. set_solver.
Qed.

(** What the loop over [new_mines] leaves: the sentences.  Every
    sentence loses the cells that were marked, and a sentence that holds
    none of them is not touched. *)
Lemma fold_mark_mine_knowledge l st u :
  ∃ g : Sentence → Sentence,
    knowledge (foldl mark_new_mine (st, u) l).1 = g <$> knowledge st ∧
    (∀ s, cells (g s) = cells s ∖ (list_to_set l ∖ mines st)) ∧
    (∀ s, cells s ## list_to_set l ∖ mines st → g s = s).
Proof.
  revert st u. induction l as [|c l IH]; intros st u.
  - exists id. simpl. rewrite list_fmap_id. split_and!; [done| |done].
    intros s. simpl. set_solver.
  - mine_step st u c Hc.
    + destruct (IH st u) as (g & Hk & Hcells & Hid).
      exists g. split_and!; [done| |].
      * intros s. rewrite Hcells. set_solver.
      * intros s Hs. apply Hid. set_solver.
    + destruct (IH (mark_mine st c) true) as (g & Hk & Hcells & Hid).
      exists (g ∘ (λ s, Sentence.mark_mine s c)).
      split_and!.
      * rewrite Hk. simpl. by rewrite <-list_fmap_compose.
      * intros s. simpl. rewrite Hcells, sentence_mark_mine_cells.
        simpl. set_solver.
      * intros s Hs. simpl.
        rewrite sentence_mark_mine_absent by set_solver.
        apply Hid. simpl. set_solver.
Qed.

Lemma fold_mark_safe_knowledge l st u :
  ∃ g : Sentence → Sentence,
    knowledge (foldl mark_new_safe (st, u) l).1 = g <$> knowledge st ∧
    (∀ s, cells (g s) = cells s ∖ (list_to_set l ∖ safes st)) ∧
    (∀ s, cells s ## list_to_set l ∖ safes st → g s = s).
Proof.
  revert st u. induction l as [|c l IH]; intros st u.
  - exists id. simpl. rewrite list_fmap_id. split_and!; [done| |done].
    intros s. simpl. set_solver.
  - safe_step st u c Hc.
    + destruct (IH st u) as (g & Hk & Hcells & Hid).
      exists g. split_and!; [done| |].
      * intros s. rewrite Hcells. set_solver.
      * intros s Hs. apply Hid. set_solver.
    + destruct (IH (mark_safe st c) true) as (g & Hk & Hcells & Hid).
      exists (g ∘ (λ s, Sentence.mark_safe s c)).
      split_and!.
      * rewrite Hk. simpl. by rewrite <-list_fmap_compose.
      * intros s. simpl. rewrite Hcells, sentence_mark_safe_cells.
        simpl. set_solver.
      * intros s Hs. simpl.
        rewrite sentence_mark_safe_absent by set_solver.
        apply Hid. simpl. set_solver.
Qed.

(** [update_needed] after a marking loop. *)
Lemma fold_mark_mine_flag l st u :
  (foldl mark_new_mine (st, u) l).2 = true ↔
  u = true ∨ ∃ c, c ∈ l ∧ c ∉ mines st.
Proof.
  revert st u. induction l as [|c l IH]; intros st u.
  - simpl. split; [auto|]. intros [?|(c&Hc&_)]; [done|]. by apply elem_of_nil in Hc.
  - mine_step st u c Hc.
    + rewrite IH. split.
      * intros [?|(c'&?&?)]; [auto|]. right. exists c'. split; [by right|done].
      * intros [?|(c'&[ ->|?]%elem_of_cons&?)]; [auto|done|].
        right. by exists c'.
    + rewrite IH. split; [|auto]. intros _. right. exists c. split; [left|done].
Qed.

Lemma fold_mark_safe_flag l st u :
  (foldl mark_new_safe (st, u) l).2 = true ↔
  u = true ∨ ∃ c, c ∈ l ∧ c ∉ safes st.
Proof.
  revert st u. induction l as [|c l IH]; intros st u.
  - simpl. split; [auto|]. intros [?|(c&Hc&_)]; [done|]. by apply elem_of_nil in Hc.
  - safe_step st u c Hc.
    + rewrite IH. split.
      * intros [?|(c'&?&?)]; [auto|]. right. exists c'. split; [by right|done].
      * intros [?|(c'&[ ->|?]%elem_of_cons&?)]; [auto|done|].
        right. by exists c'.
    + rewrite IH. split; [|auto]. intros _. right. exists c. split; [left|done].
Qed.

(** A marking loop that finds every cell classified already is the
    identity. *)
Lemma fold_mark_mine_idle l st u :
  (∀ c, c ∈ l → c ∈ mines st) → foldl mark_new_mine (st, u) l = (st, u).
Proof.
  induction l as [|c l IH]; intros H; [done|].
  cbn [foldl]. rewrite mark_new_mine_known by (apply H; left).
  apply IH. intros c' Hc'. apply H. by right.
Qed.

Lemma fold_mark_safe_idle l st u :
  (∀ c, c ∈ l → c ∈ safes st) → foldl mark_new_safe (st, u) l = (st, u).
Proof.
  induction l as [|c l IH]; intros H; [done|].
  cbn [foldl]. rewrite mark_new_safe_known by (apply H; left).
  apply IH. intros c' Hc'. apply H. by right.
Qed.
End marking.

(** ** One iteration: marking, pruning, inference *)

Section stages.
Implicit Types (s d : Sentence) (st : AI) (c : Cell) (kb : list Sentence).

Lemma mark_all_frame st :
  let r := (mark_all st).1 in
  height r = height st ∧ width r = width st ∧
  moves_made r = moves_made st ∧
  mines r = mines st ∪ collect Sentence.known_mines (knowledge st) ∧
  safes r = safes st ∪ collect Sentence.known_safes (knowledge st).
Proof.
  unfold mark_all.
  set (nm := collect Sentence.known_mines (knowledge st)).
  set (ns := collect Sentence.known_safes (knowledge st)).
  destruct (fold_mark_mine_frame (set_iter nm) st false) as (H1&H2&H3&H4&H5).
  destruct (foldl mark_new_mine (st, false) (set_iter nm)) as [st1 u1] eqn:E1.
  destruct (fold_mark_safe_frame (set_iter ns) st1 u1) as (G1&G2&G3&G4&G5).
  simpl in *.
  assert (list_to_set (set_iter nm) = nm) as Hnm
    by (apply set_eq; intros c; by rewrite elem_of_list_to_set, set_iter_elem).
  assert (list_to_set (set_iter ns) = ns) as Hns
    by (apply set_eq; intros c; by rewrite elem_of_list_to_set, set_iter_elem).
  rewrite Hnm in H5. rewrite Hns in G5.
  split_and!; congruence.
Qed.

Lemma mark_all_knowledge st :
  let X := (collect Sentence.known_mines (knowledge st) ∖ mines st) ∪
           (collect Sentence.known_safes (knowledge st) ∖ safes st) in
  ∃ g : Sentence → Sentence,
    knowledge (mark_all st).1 = g <$> knowledge st ∧
    (∀ s, cells (g s) = cells s ∖ X) ∧
    (∀ s, cells s ## X → g s = s).
Proof.
  unfold mark_all.
  set (nm := collect Sentence.known_mines (knowledge st)).
  set (ns := collect Sentence.known_safes (knowledge st)).
  destruct (fold_mark_mine_frame (set_iter nm) st false) as (_&_&_&H4&_).
  destruct (fold_mark_mine_knowledge (set_iter nm) st false) as (g1&K1&C1&I1).
  destruct (foldl mark_new_mine (st, false) (set_iter nm)) as [st1 u1] eqn:E1.
  destruct (fold_mark_safe_knowledge (set_iter ns) st1 u1) as (g2&K2&C2&I2).
  simpl in *.
  assert (list_to_set (set_iter nm) = nm) as Hnm
    by (apply set_eq; intros c; by rewrite elem_of_list_to_set, set_iter_elem).
  assert (list_to_set (set_iter ns) = ns) as Hns
    by (apply set_eq; intros c; by rewrite elem_of_list_to_set, set_iter_elem).
  rewrite Hnm in C1, I1. rewrite Hns, H4 in C2, I2.
  exists (g2 ∘ g1). split_and!.
  - rewrite K2, K1. by rewrite <-list_fmap_compose.
  - intros s. simpl. rewrite C2, C1. set_solver.
  - intros s Hs. simpl. rewrite (I1 s) by set_solver. apply I2. set_solver.
Qed.

Lemma mark_all_flag st :
  (mark_all st).2 = true ↔
  (∃ c, c ∈ collect Sentence.known_mines (knowledge st) ∧ c ∉ mines st) ∨
  (∃ c, c ∈ collect Sentence.known_safes (knowledge st) ∧ c ∉ safes st).
Proof.
  unfold mark_all.
  set (nm := collect Sentence.known_mines (knowledge st)).
  set (ns := collect Sentence.known_safes (knowledge st)).
  destruct (fold_mark_mine_frame (set_iter nm) st false) as (_&_&_&H4&_).
  pose proof (fold_mark_mine_flag (set_iter nm) st false) as F1.
  destruct (foldl mark_new_mine (st, false) (set_iter nm)) as [st1 u1] eqn:E1.
  rewrite fold_mark_safe_flag. simpl in *. rewrite F1, H4.
  split.
  - intros [[?|(c&?%set_iter_elem&?)]|(c&?%set_iter_elem&?)]; [done|left|right]; eauto.
  - intros [(c&?&?)|(c&?&?)]; [left; right|right]; exists c;
      by rewrite set_iter_elem.
Qed.

Lemma mark_all_idle st :
  collect Sentence.known_mines (knowledge st) ⊆ mines st →
  collect Sentence.known_safes (knowledge st) ⊆ safes st →
  mark_all st = (st, false).
Proof.
  intros Hm Hs. unfold mark_all.
  rewrite fold_mark_mine_idle by (intros c ?%set_iter_elem; set_solver).
  rewrite fold_mark_safe_idle by (intros c ?%set_iter_elem; set_solver).
  done.
Qed.

(** The removal of classified cells from one sentence. *)
Lemma reduce_fold st (l : list Cell) (acc : gset Cell * Z) :
  (foldl (reduce_step st) acc l).1 =
  acc.1 ∪ list_to_set (filter (λ c, c ∈ safes st ∪ mines st) l).
Proof.
  revert acc. induction l as [|c l IH]; intros acc; cbn [foldl].
  - simpl. set_solver.
  - rewrite IH. unfold reduce_step. rewrite filter_cons.
    destruct (decide (c ∈ safes st)) as [Hs|Hs].
    + rewrite decide_True by set_solver. simpl. set_solver.
    + destruct (decide (c ∈ mines st)) as [Hm|Hm].
      * rewrite decide_True by set_solver. simpl. set_solver.
      * rewrite decide_False by set_solver. done.
Qed.

Lemma reduce_fold_idle st (l : list Cell) (acc : gset Cell * Z) :
  (∀ c, c ∈ l → c ∉ safes st ∪ mines st) →
  foldl (reduce_step st) acc l = acc.
Proof.
  revert acc. induction l as [|c l IH]; intros acc H; cbn [foldl]; [done|].
  rewrite IH by (intros c' Hc'; apply H; by right).
  assert (c ∉ safes st ∪ mines st) as Hc by (apply H; left).
  unfold reduce_step.
  rewrite decide_False by set_solver. rewrite decide_False by set_solver.
  done.
Qed.

Lemma reduce_cells st s :
  cells (reduce st s) = cells s ∖ (safes st ∪ mines st).
Proof.
  unfold reduce. simpl. rewrite reduce_fold. simpl.
  apply set_eq. intros c.
  rewrite !elem_of_difference, elem_of_union, elem_of_list_to_set,
    list_elem_of_filter, set_iter_elem.
  set_solver.
Qed.

Lemma reduce_clean st s :
  cells s ## safes st ∪ mines st → reduce st s = s.
Proof.
  intros H. unfold reduce.
  rewrite reduce_fold_idle by (intros c ?%set_iter_elem; set_solver).
  simpl. destruct s as [X k]. simpl. f_equal. set_solver.
Qed.

Lemma prune_elem st d :
  d ∈ prune st ↔ ∃ s, s ∈ knowledge st ∧ d = reduce st s ∧ cells d ≠ ∅.
Proof.
  unfold prune. rewrite list_elem_of_filter, list_elem_of_fmap, len_pos.
  naive_solver.
Qed.

Lemma prune_length st : (length (prune st) ≤ length (knowledge st))%nat.
Proof.
  unfold prune. etrans; [apply length_filter|]. by rewrite length_fmap.
Qed.

Lemma prune_idle st :
  (∀ s, s ∈ knowledge st → cells s ## safes st ∪ mines st ∧ cells s ≠ ∅) →
  prune st = knowledge st.
Proof.
  intros H. unfold prune.
  assert (reduce st <$> knowledge st = knowledge st) as ->.
  { rewrite <-(list_fmap_id (knowledge st)) at 2.
    apply list_fmap_ext. intros i s Hs. simpl.
    apply reduce_clean, H. by eapply list_elem_of_lookup_2. }
  induction (knowledge st) as [|s kb IH]; [done|].
  rewrite filter_cons, decide_True.
  - f_equal. apply IH. intros s' Hs'. apply H. by right.
  - apply len_pos, H. left.
Qed.
End stages.

(** ** Subset inference *)

Section inference.
Implicit Types (s d : Sentence) (kb acc : list Sentence).

Lemma strict_difference_nonempty (X Y : gset Cell) : X ⊂ Y → Y ∖ X ≠ ∅.
Proof.
  intros [H1 H2] He. apply H2. intros c Hc.
  destruct (decide (c ∈ X)); [done|]. set_solver.
Qed.

Lemma infer_step_cases kb s1 acc s2 :
  infer_step kb s1 acc s2 =
  if decide (yields kb s1 s2 (derived s1 s2) ∧ derived s1 s2 ∉ acc)
  then acc ++ [derived s1 s2] else acc.
Proof.
  unfold infer_step, yields, in_range, derived. simpl.
  destruct (decide (s1 = s2)) as [->|Hne].
  { rewrite decide_False; [done|]. intros [[[_ H] _] _]. by apply H. }
  destruct (decide (cells s1 ⊆ cells s2)) as [Hsub|Hsub]; cycle 1.
  { rewrite decide_False; [done|]. intros [[[H _] _] _]. by apply Hsub. }
  destruct (decide (cells s1 ≠ cells s2)) as [Hneq|Heq]; cycle 1.
  { rewrite decide_False; [done|]. intros [[[_ H] _] _].
    apply dec_stable in Heq. apply H. by rewrite Heq. }
  assert (cells s1 ⊂ cells s2) as Hstrict.
  { split; [done|]. intros H. apply Hneq. set_solver. }
  pose proof (strict_difference_nonempty _ _ Hstrict) as Hn%len_pos.
  repeat case_bool_decide; simpl; case_decide; try done; naive_solver lia.
Qed.

Lemma infer_step_elem kb s1 acc s2 d :
  d ∈ infer_step kb s1 acc s2 ↔ d ∈ acc ∨ yields kb s1 s2 d.
Proof.
  rewrite infer_step_cases. case_decide as H.
  - rewrite elem_of_app, list_elem_of_singleton. destruct H as [H _].
    split; [intros [?| ->]; auto|]. intros [?|Hy]; [auto|].
    right. by destruct Hy as (_&->&_).
  - split; [auto|]. intros [?|Hy]; [done|].
    destruct (decide (d ∈ acc)); [done|]. exfalso. apply H.
    unfold yields in *. destruct Hy as (?&->&?&?). split_and!; done.
Qed.

Lemma infer_step_NoDup kb s1 acc s2 :
  NoDup acc → NoDup (infer_step kb s1 acc s2).
Proof.
  intros H. rewrite infer_step_cases. case_decide as Hy; [|done].
  apply NoDup_app. split_and!; [done| |apply NoDup_singleton].
  intros d Hd ->%list_elem_of_singleton. by destruct Hy.
Qed.

Lemma infer_inner_elem kb s1 (l : list Sentence) acc d :
  d ∈ foldl (infer_step kb s1) acc l ↔
  d ∈ acc ∨ ∃ s2, s2 ∈ l ∧ yields kb s1 s2 d.
Proof.
  revert acc. induction l as [|s2 l IH]; intros acc; cbn [foldl].
  - split; [auto|]. intros [?|(?&H&_)]; [done|]. by apply elem_of_nil in H.
  - rewrite IH, infer_step_elem. split.
    + intros [[?|?]|(s&?&?)]; [auto|right..].
      * exists s2. split; [left|done].
      * exists s. split; [by right|done].
    + intros [?|(s&[ ->|?]%elem_of_cons&?)]; [auto|auto|].
      right. by exists s.
Qed.

Lemma infer_inner_NoDup kb s1 (l : list Sentence) acc :
  NoDup acc → NoDup (foldl (infer_step kb s1) acc l).
Proof.
  revert acc. induction l as [|s2 l IH]; intros acc H; cbn [foldl]; [done|].
  by apply IH, infer_step_NoDup.
Qed.

Lemma infer_outer_elem kb (l1 : list Sentence) acc d :
  d ∈ foldl (λ acc s1, foldl (infer_step kb s1) acc kb) acc l1 ↔
  d ∈ acc ∨ ∃ s1 s2, s1 ∈ l1 ∧ s2 ∈ kb ∧ yields kb s1 s2 d.
Proof.
  revert acc. induction l1 as [|s1 l1 IH]; intros acc; cbn [foldl].
  - split; [auto|]. intros [?|(?&?&H&_)]; [done|]. by apply elem_of_nil in H.
  - rewrite IH, infer_inner_elem. split.
    + intros [[?|(s2&?&?)]|(s&s2&?&?&?)]; [auto|right..].
      * exists s1, s2. split_and!; [left|done..].
      * exists s, s2. split_and!; [by right|done..].
    + intros [?|(s&s2&[ ->|?]%elem_of_cons&?&?)]; [auto| |].
      * left. right. by exists s2.
      * right. by exists s, s2.
Qed.

Lemma infer_outer_NoDup kb (l1 : list Sentence) acc :
  NoDup acc →
  NoDup (foldl (λ acc s1, foldl (infer_step kb s1) acc kb) acc l1).
Proof.
  revert acc. induction l1 as [|s1 l1 IH]; intros acc H; cbn [foldl]; [done|].
  by apply IH, infer_inner_NoDup.
Qed.

(** The new inferences of an iteration are exactly the in-range
    differences of strictly nested pairs that the knowledge lacks. *)
Lemma infer_elem kb d :
  d ∈ infer kb ↔ ∃ s1 s2, s1 ∈ kb ∧ s2 ∈ kb ∧ yields kb s1 s2 d.
Proof.
  unfold infer. rewrite infer_outer_elem. split; [|auto].
  intros [H|?]; [|done]. by apply elem_of_nil in H.
Qed.

Lemma infer_NoDup kb : NoDup (infer kb).
Proof. apply infer_outer_NoDup, NoDup_nil_2. Qed.

Lemma infer_fresh kb d : d ∈ infer kb → d ∉ kb.
Proof. intros (?&?&?&?&Hy)%infer_elem. by destruct Hy as (_&_&_&?). Qed.

Lemma infer_in_range kb d : d ∈ infer kb → in_range d.
Proof. intros (?&?&?&?&Hy)%infer_elem. by destruct Hy as (_&_&?&_). Qed.

Lemma infer_cells kb d :
  d ∈ infer kb → ∃ s, s ∈ kb ∧ cells d ⊆ cells s ∧ cells d ≠ ∅.
Proof.
  intros (s1&s2&?&?&Hy)%infer_elem. destruct Hy as (Hs&->&_&_).
  exists s2. split_and!; [done|simpl; set_solver|].
  by apply strict_difference_nonempty.
Qed.
End inference.

(** ** One iteration as a whole *)

Section iteration.
Implicit Types (s d : Sentence) (st : AI) (c : Cell) (kb : list Sentence).

Lemma named_elem kb c : c ∈ named kb ↔ ∃ s, s ∈ kb ∧ c ∈ cells s.
Proof.
  unfold named. rewrite elem_of_union_list. split.
  - intros (X&(s&->&Hs)%list_elem_of_fmap&Hc). eauto.
  - intros (s&Hs&Hc). exists (cells s). split; [|done].
    apply list_elem_of_fmap. eauto.
Qed.

Lemma pass_knowledge st :
  knowledge (pass st).1 =
  prune (mark_all st).1 ++ infer (prune (mark_all st).1).
Proof. done. Qed.

Lemma pass_flag st :
  (pass st).2 =
  (mark_all st).2
  || bool_decide (length (prune (mark_all st).1)
                  < length (knowledge (mark_all st).1))%nat
  || bool_decide (infer (prune (mark_all st).1) ≠ []).
Proof. done. Qed.

Lemma pass_frame st :
  let r := (pass st).1 in
  height r = height st ∧ width r = width st ∧
  moves_made r = moves_made st ∧
  mines r = mines st ∪ collect Sentence.known_mines (knowledge st) ∧
  safes r = safes st ∪ collect Sentence.known_safes (knowledge st).
Proof. apply mark_all_frame. Qed.

(** After an iteration no sentence names a classified cell and no
    sentence is empty, whatever the state before. *)
Lemma pass_tidy st : tidy (pass st).1.
Proof.
  assert (∀ d, d ∈ prune (mark_all st).1 →
            cells d ## safes (mark_all st).1 ∪ mines (mark_all st).1
            ∧ cells d ≠ ∅) as Hp.
  { intros d (s&_&->&Hne)%prune_elem. split; [|done].
    rewrite reduce_cells. set_solver. }
  intros d. rewrite pass_knowledge, elem_of_app. simpl.
  intros [Hd|Hd]; [by apply Hp|].
  apply infer_cells in Hd as (s&Hs&Hsub&Hne).
  destruct (Hp s Hs). split; [set_solver|done].
Qed.

Lemma tidy_clean st : tidy st → clean st.
Proof. intros H s Hs. by destruct (H s Hs). Qed.

(** In a clean state the cells that the sentences give away are new. *)
Lemma clean_known_mines st c :
  clean st → c ∈ collect Sentence.known_mines (knowledge st) → c ∉ mines st.
Proof.
  intros Hc (s&Hs&Hk%known_mines_elem)%collect_elem.
  specialize (Hc s Hs). set_solver.
Qed.

Lemma clean_known_safes st c :
  clean st → c ∈ collect Sentence.known_safes (knowledge st) → c ∉ safes st.
Proof.
  intros Hc (s&Hs&Hk%known_safes_elem)%collect_elem.
  specialize (Hc s Hs). set_solver.
Qed.

(** An iteration that marks a cell shrinks the set of named cells. *)
Lemma pass_marks_shrink st :
  (mark_all st).2 = true →
  named (knowledge (pass st).1) ⊂ named (knowledge st).
Proof.
  intros Hflag.
  destruct (mark_all_knowledge st) as (g&Hk&Hcells&_).
  set (X := collect Sentence.known_mines (knowledge st) ∖ mines st
            ∪ collect Sentence.known_safes (knowledge st) ∖ safes st) in *.
  assert (∃ c, c ∈ X ∧ c ∈ named (knowledge st)) as (c&HcX&Hcn).
  { apply mark_all_flag in Hflag as [(c&Hc&Hn)|(c&Hc&Hn)]; exists c.
    - split; [set_solver|]. apply named_elem.
      apply collect_elem in Hc as (s&Hs&Hc%known_mines_elem). exists s. tauto.
    - split; [set_solver|]. apply named_elem.
      apply collect_elem in Hc as (s&Hs&Hc%known_safes_elem). exists s. tauto. }
  assert (∀ c', c' ∈ named (knowledge (pass st).1) →
                c' ∈ named (knowledge st) ∧ c' ∉ X) as Hsub.
  { assert (∀ d, d ∈ prune (mark_all st).1 →
              ∃ s, s ∈ knowledge st ∧ cells d ⊆ cells s ∖ X) as Hp.
    { intros d (s'&Hs'&->&_)%prune_elem.
      rewrite Hk in Hs'. apply list_elem_of_fmap in Hs' as (s&->&Hs).
      exists s. split; [done|]. rewrite reduce_cells, Hcells. set_solver. }
    intros c' (d&Hd&Hc')%named_elem.
    rewrite pass_knowledge, elem_of_app in Hd.
    assert (∃ s, s ∈ knowledge st ∧ cells d ⊆ cells s ∖ X) as (s&Hs&Hds).
    { destruct Hd as [Hd|Hd]; [by apply Hp|].
      apply infer_cells in Hd as (s'&Hs'&Hsub&_).
      destruct (Hp s' Hs') as (s&?&?). exists s. split; [done|set_solver]. }
    split; [|set_solver]. apply named_elem. exists s. split; [done|set_solver]. }
  split.
  - intros c' Hc'. by apply Hsub.
  - intros H. specialize (H c Hcn). apply Hsub in H. tauto.
Qed.

(** In a tidy state an iteration that marks nothing only appends the
    new inferences. *)
Lemma pass_tidy_idle st :
  tidy st → (mark_all st).2 = false →
  pass st = (set_knowledge st (knowledge st ++ infer (knowledge st)),
             bool_decide (infer (knowledge st) ≠ [])).
Proof.
  intros Ht Hflag.
  assert (mark_all st = (st, false)) as Hm.
  { apply mark_all_idle.
    - intros c Hc. destruct (decide (c ∈ mines st)); [done|].
      exfalso. apply not_true_iff_false in Hflag. apply Hflag.
      apply mark_all_flag. left. eauto.
    - intros c Hc. destruct (decide (c ∈ safes st)); [done|].
      exfalso. apply not_true_iff_false in Hflag. apply Hflag.
      apply mark_all_flag. right. eauto. }
  unfold pass. rewrite Hm. simpl. rewrite (prune_idle st Ht).
  rewrite bool_decide_eq_false_2 by lia. done.
Qed.

Lemma set_knowledge_same st : set_knowledge st (knowledge st) = st.
Proof. by destruct st. Qed.

(** An iteration of a clean state that ends with [update_needed] false
    has changed nothing. *)
Lemma pass_quiet st :
  clean st → (pass st).2 = false → pass st = (st, false).
Proof.
  intros Hc Hflag. rewrite pass_flag in Hflag.
  apply orb_false_iff in Hflag as [Hflag Hinf].
  apply orb_false_iff in Hflag as [Hmark Hlen].
  apply bool_decide_eq_false in Hlen. apply bool_decide_eq_false in Hinf.
  apply dec_stable in Hinf.
  assert (mark_all st = (st, false)) as Hm.
  { apply mark_all_idle.
    - intros c Hc'. exfalso. apply not_true_iff_false in Hmark. apply Hmark.
      apply mark_all_flag. left. exists c. eauto using clean_known_mines.
    - intros c Hc'. exfalso. apply not_true_iff_false in Hmark. apply Hmark.
      apply mark_all_flag. right. exists c. eauto using clean_known_safes. }
  rewrite Hm in Hlen, Hinf. simpl in *.
  assert (prune st = knowledge st) as Hp.
  { unfold prune in *.
    assert (reduce st <$> knowledge st = knowledge st) as Hr.
    { rewrite <-(list_fmap_id (knowledge st)) at 2.
      apply list_fmap_ext. intros i s Hs. simpl.
      apply reduce_clean, Hc. by eapply list_elem_of_lookup_2. }
    rewrite Hr in *.
    apply filter_full. lia. }
  unfold pass. rewrite Hm. simpl. rewrite Hp in *. rewrite Hinf.
  rewrite app_nil_r, set_knowledge_same.
  rewrite bool_decide_eq_false_2 by lia.
  by rewrite bool_decide_eq_false_2 by (by intros ?).
Qed.
End iteration.

(** ** Termination of the [while] loop *)

Section termination.
Implicit Types (s d : Sentence) (st : AI) (c : Cell) (kb : list Sentence).

Lemma subsets_elem (l : list Cell) (X : gset Cell) :
  X ⊆ list_to_set l → X ∈ subsets l.
Proof.
  revert X. induction l as [|c l IH]; intros X HX; simpl.
  - assert (X = ∅) as -> by set_solver. left.
  - apply elem_of_app. destruct (decide (c ∈ X)) as [Hc|Hc].
    + right. apply list_elem_of_fmap. exists (X ∖ {[c]}). split.
      * apply set_eq. intros c'. destruct (decide (c' = c)); set_solver.
      * apply IH. set_solver.
    + left. apply IH. set_solver.
Qed.

Lemma candidates_elem (U : gset Cell) d :
  cells d ⊆ U → in_range d → d ∈ candidates U.
Proof.
  intros Hsub [H0 Hk]. unfold candidates.
  apply list_elem_of_bind. exists (cells d). split.
  - apply list_elem_of_bind. exists (count d). split.
    + destruct d. simpl. left.
    + apply elem_of_seqZ. apply subseteq_size in Hsub. unfold len in *. lia.
  - apply subsets_elem. intros c Hc. apply elem_of_list_to_set, elem_of_elements.
    by apply Hsub.
Qed.

Lemma filter_length_lt {A} (P Q : A → Prop)
    `{∀ x, Decision (P x)} `{∀ x, Decision (Q x)} (l : list A) (x0 : A) :
  (∀ x, Q x → P x) → x0 ∈ l → P x0 → ¬ Q x0 →
  (length (filter Q l) < length (filter P l))%nat.
Proof.
  intros HQP Hx0 HP HQ.
  assert (∀ l', length (filter Q l') ≤ length (filter P l'))%nat as Hle.
  { induction l' as [|x l' IH]; [done|]. rewrite !filter_cons.
    destruct (decide (Q x)) as [Hq|Hq].
    - rewrite decide_True by auto. simpl. lia.
    - case_decide; simpl; lia. }
  induction l as [|x l IH]; [by apply elem_of_nil in Hx0|].
  rewrite !filter_cons. apply elem_of_cons in Hx0 as [<-|Hx0].
  - destruct (decide (Q x0)); [done|]. destruct (decide (P x0)); [|done].
    specialize (Hle l). simpl. lia.
  - specialize (IH Hx0). destruct (decide (Q x)) as [Hq|Hq].
    + rewrite decide_True by auto. simpl. lia.
    + case_decide; simpl; lia.
Qed.

Lemma missing_lt kb kb' d :
  named kb' = named kb → (∀ s, s ∈ kb → s ∈ kb') →
  d ∈ kb' → d ∉ kb → cells d ⊆ named kb → in_range d →
  (missing kb' < missing kb)%nat.
Proof.
  intros Hn Hsub Hd Hnd Hcells Hr. unfold missing. rewrite Hn.
  apply (filter_length_lt _ _ _ d); [naive_solver| |done|naive_solver].
  by apply candidates_elem.
Qed.

Lemma loop_step fuel st :
  loop (S fuel) st =
  if (pass st).2 then loop fuel (pass st).1 else Some (pass st).1.
Proof. done. Qed.

(** From a tidy state the loop stops: each iteration either shrinks the
    set of named cells or, leaving it as it is, adds sentences that were
    missing among the finitely many candidates over that set. *)
Lemma tidy_terminates (n m : nat) st :
  tidy st →
  (size (named (knowledge st)) ≤ n)%nat → (missing (knowledge st) ≤ m)%nat →
  ∃ fuel st', loop fuel st = Some st'.
Proof.
  revert m st. induction n as [n IHn] using lt_wf_ind.
  induction m as [m IHm] using lt_wf_ind. intros st Ht Hn Hm.
  destruct (mark_all st).2 eqn:Hflag.
  - pose proof (pass_marks_shrink st Hflag) as Hsh%subset_size.
    destruct (IHn (size (named (knowledge (pass st).1))) ltac:(lia)
                (missing (knowledge (pass st).1)) (pass st).1)
      as (fuel&st'&Hl); [apply pass_tidy|done..|].
    exists (S fuel), st'. rewrite loop_step, pass_flag, Hflag. done.
  - pose proof (pass_tidy_idle st Ht Hflag) as Hp.
    destruct (infer (knowledge st)) as [|d ds] eqn:Hinf.
    + exists 1%nat, (pass st).1. rewrite loop_step, Hp. done.
    + assert (d ∈ infer (knowledge st)) as Hd by (rewrite Hinf; left).
      set (kb' := knowledge st ++ d :: ds) in *.
      assert (named kb' = named (knowledge st)) as Hnamed.
      { apply set_eq. intros c. rewrite !named_elem. split.
        - intros (s&[Hs|Hs]%elem_of_app&Hc); [eauto|].
          rewrite <-Hinf in Hs. apply infer_cells in Hs as (s'&?&?&_).
          exists s'. split; [done|set_solver].
        - intros (s&Hs&Hc). exists s. split; [|done].
          apply elem_of_app. auto. }
      destruct (IHm (missing kb')) with (st := (pass st).1)
        as (fuel&st'&Hl).
      * eapply Nat.lt_le_trans; [|exact Hm].
        apply (missing_lt _ _ d); [done| | | | |].
        -- intros s Hs. apply elem_of_app. auto.
        -- apply elem_of_app. right. left.
        -- by apply infer_fresh.
        -- apply infer_cells in Hd as (s'&?&?&_).
           intros c Hc. apply named_elem. exists s'. split; [done|set_solver].
        -- by eapply infer_in_range.
      * apply pass_tidy.
      * rewrite Hp. simpl. fold kb'. rewrite Hnamed. done.
      * rewrite Hp. simpl. done.
      * exists (S fuel), st'. rewrite loop_step. rewrite Hp in *. simpl in *.
        done.
Qed.

(** The loop stops from every state. *)
Lemma loop_terminates st : ∃ fuel st', loop fuel st = Some st'.
Proof.
  destruct (pass st).2 eqn:Hflag.
  - destruct (tidy_terminates _ _ (pass st).1 (pass_tidy st) (le_n _) (le_n _))
      as (fuel&st'&Hl).
    exists (S fuel), st'. by rewrite loop_step, Hflag.
  - exists 1%nat, (pass st).1. by rewrite loop_step, Hflag.
Qed.

(** More fuel does not change the result. *)
Lemma loop_fuel_mono fuel fuel' st st' :
  loop fuel st = Some st' → (fuel ≤ fuel')%nat → loop fuel' st = Some st'.
Proof.
  revert fuel' st. induction fuel as [|fuel IH]; intros fuel' st; [done|].
  intros Hl Hle. destruct fuel' as [|fuel']; [lia|].
  rewrite loop_step in *. destruct (pass st).2; [|done].
  apply IH; [done|lia].
Qed.

Lemma loop_deterministic fuel1 fuel2 st st1 st2 :
  loop fuel1 st = Some st1 → loop fuel2 st = Some st2 → st1 = st2.
Proof.
  intros H1 H2.
  apply (loop_fuel_mono _ (fuel1 `max` fuel2)) in H1; [|lia].
  apply (loop_fuel_mono _ (fuel1 `max` fuel2)) in H2; [|lia].
  congruence.
Qed.

(** A property that every iteration keeps holds when the loop stops. *)
Lemma loop_invariant (P : AI → Prop) fuel st st' :
  (∀ st, P st → P (pass st).1) →
  P st → loop fuel st = Some st' → P st'.
Proof.
  intros Hstep. revert st. induction fuel as [|fuel IH]; intros st HP; [done|].
  rewrite loop_step. destruct (pass st).2.
  - apply IH. by apply Hstep.
  - intros [= <-]. by apply Hstep.
Qed.

(** The state in which the loop stops is tidy, and a further iteration
    leaves it as it is. *)
Lemma loop_result_tidy fuel st st' : loop fuel st = Some st' → tidy st'.
Proof.
  revert st. induction fuel as [|fuel IH]; intros st; [done|].
  rewrite loop_step. destruct (pass st).2.
  - apply IH.
  - intros [= <-]. apply pass_tidy.
Qed.

Lemma loop_result_stable fuel st st' :
  clean st → loop fuel st = Some st' → pass st' = (st', false).
Proof.
  revert st. induction fuel as [|fuel IH]; intros st Hc; [done|].
  rewrite loop_step. destruct (pass st).2 eqn:Hflag.
  - apply IH. apply tidy_clean, pass_tidy.
  - intros Heq. rewrite (pass_quiet st Hc Hflag) in Heq. simpl in Heq.
    injection Heq as <-. by apply pass_quiet.
Qed.
End termination.

(** ** The neighbour loop *)

Section neighbourhood.
Implicit Types (st : AI) (cell nb c : Cell) (M : gset Cell).

Lemma around_NoDup cell : NoDup (around cell).
Proof.
  destruct cell as [x y]. unfold around. simpl.
  repeat (apply NoDup_cons_2;
    [rewrite ?elem_of_cons, elem_of_nil; intros H;
     repeat (destruct H as [H|H]; [inversion H; lia|]); done|]).
  apply NoDup_nil_2.
Qed.

Lemma scan_step_cases st cell acc nb :
  scan_step st cell acc nb =
  if decide (in_grid (height st) (width st) cell nb) then
    if decide (nb ∈ mines st) then (acc.1, acc.2 - 1)
    else if decide (nb ∈ moves_made st ∪ safes st) then acc
    else ({[nb]} ∪ acc.1, acc.2)
  else acc.
Proof.
  unfold scan_step, in_grid.
  destruct (decide (nb = cell)) as [->|Hne].
  { rewrite decide_False; [done|]. tauto. }
  repeat case_bool_decide; simpl; repeat case_decide;
    try done; try tauto; set_solver.
Qed.

Lemma len_insert (X : gset Cell) c : c ∉ X → len ({[c]} ∪ X) = len X + 1.
Proof.
  intros H. unfold len. rewrite size_union by set_solver.
  rewrite size_singleton. lia.
Qed.

Lemma scan_fold st cell (l : list Cell) (acc : gset Cell * Z) :
  NoDup l →
  let N : gset Cell :=
    list_to_set (filter (in_grid (height st) (width st) cell) l) in
  foldl (scan_step st cell) acc l =
  (acc.1 ∪ N ∖ (moves_made st ∪ safes st ∪ mines st),
   acc.2 - len (N ∩ mines st)).
Proof.
  revert acc. induction l as [|nb l IH]; intros acc Hnd N; subst N.
  - simpl. destruct acc as [X k]. simpl. f_equal; [set_solver|].
    assert ((∅ : gset Cell) ∩ mines st = ∅) as -> by set_solver.
    unfold len. rewrite size_empty. lia.
  - apply NoDup_cons in Hnd as [Hnb Hnd]. cbn [foldl].
    rewrite (IH _ Hnd). rewrite scan_step_cases, filter_cons.
    set (N := list_to_set (filter (in_grid (height st) (width st) cell) l)
              : gset Cell).
    assert (nb ∉ N) as HnbN.
    { unfold N. rewrite elem_of_list_to_set, list_elem_of_filter. tauto. }
    destruct (decide (in_grid (height st) (width st) cell nb)) as [Hg|Hg];
      [|done].
    rewrite list_to_set_cons. fold N.
    destruct (decide (nb ∈ mines st)) as [Hm|Hm]; simpl.
    { f_equal; [set_solver|].
      assert (({[nb]} ∪ N) ∩ mines st = {[nb]} ∪ (N ∩ mines st)) as ->
        by set_solver.
      rewrite len_insert by set_solver. lia. }
    assert (({[nb]} ∪ N) ∩ mines st = N ∩ mines st) as -> by set_solver.
    destruct (decide (nb ∈ moves_made st ∪ safes st)) as [Hd|Hd]; simpl.
    + f_equal. set_solver.
    + f_equal. set_solver.
Qed.

(** The neighbour loop collects the unclassified neighbours and takes
    the known mines among the neighbours off the count. *)
Lemma scan_closed st cell count :
  let N := neighbours (height st) (width st) cell in
  scan st cell count =
  (N ∖ (moves_made st ∪ safes st ∪ mines st), count - len (N ∩ mines st)).
Proof.
  intros N. unfold scan. rewrite scan_fold by apply around_NoDup.
  simpl. f_equal. set_solver.
Qed.

Lemma nearby_mines_closed h w M cell :
  nearby_mines h w M cell = len (neighbours h w cell ∩ M).
Proof.
  unfold nearby_mines, neighbours.
  pose proof (around_NoDup cell) as Hnd. revert Hnd.
  generalize (around cell). intros l.
  assert (∀ k, NoDup l →
    foldl (λ count nb,
             if decide (nb = cell) then count
             else if bool_decide (0 ≤ nb.1 < h) && bool_decide (0 ≤ nb.2 < w)
             then if decide (nb ∈ M) then count + 1 else count
             else count) k l
    = k + len (list_to_set (filter (in_grid h w cell) l) ∩ M)) as H.
  { induction l as [|nb l IH]; intros k Hnd.
    - simpl. assert ((∅ : gset Cell) ∩ M = ∅) as -> by set_solver.
      unfold len. rewrite size_empty. lia.
    - apply NoDup_cons in Hnd as [Hnb Hnd]. cbn [foldl].
      rewrite (IH _ Hnd), filter_cons.
      set (N := list_to_set (filter (in_grid h w cell) l) : gset Cell).
      assert (nb ∉ N) as HnbN.
      { unfold N. rewrite elem_of_list_to_set, list_elem_of_filter. tauto. }
      destruct (decide (in_grid h w cell nb)) as [Hg|Hg].
      + destruct Hg as (Hne&H1&H2).
        rewrite (decide_False (P := nb = cell)) by done.
        rewrite !bool_decide_eq_true_2 by done. simpl.
        fold N. case_decide.
        * assert (({[nb]} ∪ N) ∩ M = {[nb]} ∪ (N ∩ M)) as -> by set_solver.
          rewrite len_insert by set_solver. lia.
        * assert (({[nb]} ∪ N) ∩ M = N ∩ M) as -> by set_solver. lia.
      + fold N. destruct (decide (nb = cell)); [done|].
        unfold in_grid in Hg.
        repeat case_bool_decide; simpl; try done. exfalso. tauto. }
  intros Hnd. rewrite (H 0 Hnd). lia.
Qed.
End neighbourhood.

(** ** Agreement with the board *)

Section agreement.
Variable M : gset Cell.
Implicit Types (s d : Sentence) (st : AI) (c cell : Cell).

Lemma len_subseteq (X Y : gset Cell) : X ⊆ Y → len X ≤ len Y.
Proof. intros H%subseteq_size. unfold len. lia. Qed.

Lemma len_disjoint_union (X Y : gset Cell) :
  X ## Y → len (X ∪ Y) = len X + len Y.
Proof. intros H. unfold len. rewrite size_union by done. lia. Qed.

Lemma len_difference (X Y : gset Cell) :
  Y ⊆ X → len (X ∖ Y) = len X - len Y.
Proof.
  intros H. unfold len. rewrite size_difference by done.
  apply subseteq_size in H. lia.
Qed.

Lemma agrees_sound st : agrees M st → sound st.
Proof.
  intros (_&_&_&Hk) s Hs. destruct (Hk s Hs) as [Hc Hd]. split; [|done].
  unfold in_range. rewrite Hc. split; [apply len_nonneg|].
  apply len_subseteq. set_solver.
Qed.

Lemma agrees_init h w : agrees M (init h w).
Proof.
  unfold agrees, init. simpl. split_and!; set_solver.
Qed.

Lemma agrees_mark_mine st c :
  c ∈ M → agrees M st → agrees M (mark_mine st c).
Proof.
  intros Hc (Hm&Hs&Hmv&Hk). unfold agrees. simpl.
  split_and!; [set_solver|done|done|].
  intros s' (s&->&Hin)%list_elem_of_fmap. destruct (Hk s Hin) as [Hcnt Hd].
  unfold Sentence.mark_mine. case_decide as Hcs; simpl.
  - split; [|set_solver].
    assert (cells s ∩ M = {[c]} ∪ (cells s ∖ {[c]}) ∩ M) as Heq.
    { apply set_eq. intros c'. destruct (decide (c' = c)); set_solver. }
    rewrite Hcnt, Heq, len_insert by set_solver. lia.
  - split; [done|set_solver].
Qed.

Lemma agrees_mark_safe st c :
  c ∉ M → agrees M st → agrees M (mark_safe st c).
Proof.
  intros Hc (Hm&Hs&Hmv&Hk). unfold agrees. simpl.
  split_and!; [done|set_solver|set_solver|].
  intros s' (s&->&Hin)%list_elem_of_fmap. destruct (Hk s Hin) as [Hcnt Hd].
  unfold Sentence.mark_safe. case_decide as Hcs; simpl.
  - split; [|set_solver].
    assert ((cells s ∖ {[c]}) ∩ M = cells s ∩ M) as -> by set_solver.
    done.
  - split; [done|set_solver].
Qed.

(** What the sentences give away is true of the board. *)
Lemma agrees_known_mines st c :
  agrees M st → c ∈ collect Sentence.known_mines (knowledge st) → c ∈ M.
Proof.
  intros (_&_&_&Hk) (s&Hs&Hc)%collect_elem.
  apply known_mines_elem in Hc as (Hc&_&Hcnt).
  destruct (Hk s Hs) as [Hcnt' _].
  assert (cells s ∩ M = cells s) as Heq.
  { apply set_subseteq_size_eq; [set_solver|]. unfold len in *. lia. }
  set_solver.
Qed.

Lemma agrees_known_safes st c :
  agrees M st → c ∈ collect Sentence.known_safes (knowledge st) → c ∉ M.
Proof.
  intros (_&_&_&Hk) (s&Hs&Hc)%collect_elem.
  apply known_safes_elem in Hc as (Hc&Hcnt).
  destruct (Hk s Hs) as [Hcnt' _].
  assert (cells s ∩ M = ∅) as Heq by (apply len_zero; lia).
  set_solver.
Qed.

Lemma agrees_mark_all st : agrees M st → agrees M (mark_all st).1.
Proof.
  intros Ha. unfold mark_all.
  apply (foldl_invariant (λ p, agrees M p.1)).
  - apply (foldl_invariant (λ p, agrees M p.1)); [done|].
    intros [st' u] c Hc%set_iter_elem Hst'. unfold mark_new_mine.
    case_decide; [|done]. simpl in *.
    apply agrees_mark_mine; [|done]. exact (agrees_known_mines st c Ha Hc).
  - intros [st' u] c Hc%set_iter_elem Hst'. unfold mark_new_safe.
    case_decide; [|done]. simpl in *.
    apply agrees_mark_safe; [|done]. exact (agrees_known_safes st c Ha Hc).
Qed.

Lemma agrees_derived s1 s2 :
  cells s1 ⊆ cells s2 →
  count s1 = len (cells s1 ∩ M) → count s2 = len (cells s2 ∩ M) →
  count (derived s1 s2) = len (cells (derived s1 s2) ∩ M).
Proof.
  intros Hsub H1 H2. unfold derived. simpl.
  assert ((cells s2 ∖ cells s1) ∩ M = (cells s2 ∩ M) ∖ (cells s1 ∩ M)) as ->
    by set_solver.
  rewrite len_difference by set_solver. lia.
Qed.

Lemma agrees_pass st : agrees M st → agrees M (pass st).1.
Proof.
  intros Ha%agrees_mark_all.
  destruct Ha as (Hm&Hs&Hmv&Hk).
  assert (∀ d, d ∈ prune (mark_all st).1 →
            count d = len (cells d ∩ M) ∧
            cells d ## safes (mark_all st).1 ∪ mines (mark_all st).1) as Hp.
  { intros d (s&Hin&->&_)%prune_elem. destruct (Hk s Hin) as [? Hd].
    by rewrite (reduce_clean _ _ Hd). }
  unfold agrees. rewrite pass_knowledge. simpl.
  split_and!; [done..|].
  intros d [Hd|Hd]%elem_of_app; [by apply Hp|].
  apply infer_elem in Hd as (s1&s2&Hs1&Hs2&[Hsub _]&->&_&_).
  destruct (Hp s1 Hs1) as [? _]. destruct (Hp s2 Hs2) as [? ?].
  split; [by apply agrees_derived|]. simpl. set_solver.
Qed.

(** The sentence of a truthful probe counts the mines of the board. *)
Lemma agrees_scan st cell :
  agrees M st →
  let o := scan st cell (nearby_mines (height st) (width st) M cell) in
  o.2 = len (o.1 ∩ M) ∧ o.1 ## safes st ∪ mines st.
Proof.
  intros (Hm&Hs&Hmv&_). rewrite scan_closed, nearby_mines_closed. simpl.
  set (N := neighbours (height st) (width st) cell).
  split; [|set_solver].
  assert (N ∩ M = (N ∩ mines st) ∪
            (N ∖ (moves_made st ∪ safes st ∪ mines st)) ∩ M) as ->.
  { apply set_eq. intros c. destruct (decide (c ∈ mines st)); set_solver. }
  rewrite len_disjoint_union by set_solver. lia.
Qed.

Lemma agrees_observe st cell count :
  cell ∉ M → count = nearby_mines (height st) (width st) M cell →
  agrees M st → agrees M (observe st cell count).
Proof.
  intros Hcell -> Ha. unfold observe.
  set (stA := mark_safe (add_move st cell) cell).
  assert (agrees M stA) as HA.
  { destruct (agrees_mark_safe st cell Hcell Ha) as (Hm&Hs&Hmv&Hk).
    unfold agrees, stA in *. simpl in *.
    split_and!; [done|done|set_solver|done]. }
  pose proof (agrees_scan stA cell HA) as Hscan.
  change (height stA) with (height st) in Hscan.
  change (width stA) with (width st) in Hscan.
  destruct (scan stA cell (nearby_mines (height st) (width st) M cell))
    as [nbs k]. simpl in Hscan.
  case_bool_decide as Hlen; [|done]. case_decide as Hnew; [done|].
  destruct HA as (Hm&Hs&Hmv&Hk). unfold agrees.
  split_and!; [done..|].
  intros s [Hin| ->%list_elem_of_singleton]%elem_of_app; [by apply Hk|].
  done.
Qed.

Lemma agrees_loop fuel st st' :
  agrees M st → loop fuel st = Some st' → agrees M st'.
Proof. apply (loop_invariant (agrees M)), agrees_pass. Qed.
End agreement.

(** ** What every call keeps *)

Section frames.
Implicit Types (s d : Sentence) (st : AI) (c cell : Cell).

Lemma grows_refl st : grows st st.
Proof. by unfold grows. Qed.

Lemma grows_trans st1 st2 st3 : grows st1 st2 → grows st2 st3 → grows st1 st3.
Proof. unfold grows. set_solver. Qed.

Lemma pass_grows st : grows st (pass st).1.
Proof.
  destruct (pass_frame st) as (_&_&Hmv&Hm&Hs). unfold grows.
  rewrite Hmv, Hm, Hs. set_solver.
Qed.

Lemma loop_grows fuel st st' : loop fuel st = Some st' → grows st st'.
Proof.
  apply (loop_invariant (grows st)); [|apply grows_refl].
  intros st1 H. eapply grows_trans; [done|apply pass_grows].
Qed.

Lemma loop_frame fuel st st' :
  loop fuel st = Some st' →
  height st' = height st ∧ width st' = width st ∧
  moves_made st' = moves_made st.
Proof.
  apply (loop_invariant (λ st1, height st1 = height st ∧
           width st1 = width st ∧ moves_made st1 = moves_made st));
    [|done].
  intros st1 (H1&H2&H3). destruct (pass_frame st1) as (G1&G2&G3&_).
  split_and!; congruence.
Qed.

Lemma observe_frame st cell count :
  let r := observe st cell count in
  height r = height st ∧ width r = width st ∧
  moves_made r = {[cell]} ∪ moves_made st ∧
  safes r = {[cell]} ∪ safes st ∧ mines r = mines st.
Proof.
  unfold observe. destruct (scan _ _ _) as [nbs k].
  case_bool_decide; [case_decide|]; done.
Qed.

Lemma observe_grows st cell count : grows st (observe st cell count).
Proof.
  destruct (observe_frame st cell count) as (_&_&H1&H2&H3). unfold grows.
  rewrite H1, H2, H3. set_solver.
Qed.

Lemma call_grows fuel st op st' : call fuel st op = Some st' → grows st st'.
Proof.
  destruct op as [cell count|cell|cell]; simpl.
  - intros H%loop_grows. eapply grows_trans; [apply observe_grows|done].
  - intros [= <-]. unfold grows. simpl. set_solver.
  - intros [= <-]. unfold grows. simpl. set_solver.
Qed.

Lemma calls_grows fuel st ops st' :
  calls fuel st ops = Some st' → grows st st'.
Proof.
  revert st. induction ops as [|op ops IH]; intros st; simpl.
  - intros [= <-]. apply grows_refl.
  - destruct (call fuel st op) as [st1|] eqn:E; [|done].
    intros H. eapply grows_trans; [by eapply call_grows|by apply IH].
Qed.

Lemma call_size fuel st op st' :
  call fuel st op = Some st' →
  height st' = height st ∧ width st' = width st.
Proof.
  destruct op as [cell count|cell|cell]; simpl.
  - intros (H1&H2&_)%loop_frame.
    destruct (observe_frame st cell count) as (G1&G2&_).
    split; congruence.
  - by intros [= <-].
  - by intros [= <-].
Qed.

Lemma calls_app fuel st ops1 ops2 :
  calls fuel st (ops1 ++ ops2) =
  match calls fuel st ops1 with
  | Some st1 => calls fuel st1 ops2
  | None => None
  end.
Proof.
  revert st. induction ops1 as [|op ops1 IH]; intros st; simpl; [done|].
  destruct (call fuel st op); [apply IH|done].
Qed.
End frames.

(** ** Truthful calls keep the agreement with the board *)

Section truthful_calls.
Variables (h w : Z) (M : gset Cell).
Implicit Types (st : AI) (op : Call).

Lemma agrees_call fuel st op st' :
  height st = h → width st = w →
  truthful h w M op → agrees M st → call fuel st op = Some st' →
  agrees M st'.
Proof.
  intros <- <-. destruct op as [cell count|cell|cell]; simpl.
  - intros [Hc Hn] Ha Hl. eapply agrees_loop; [|done].
    by apply agrees_observe.
  - intros Hc Ha [= <-]. by apply agrees_mark_mine.
  - intros Hc Ha [= <-]. by apply agrees_mark_safe.
Qed.

Lemma agrees_calls fuel st ops st' :
  height st = h → width st = w →
  Forall (truthful h w M) ops → agrees M st →
  calls fuel st ops = Some st' → agrees M st'.
Proof.
  revert st. induction ops as [|op ops IH]; intros st Hh Hw Hall Ha; simpl.
  - by intros [= <-].
  - apply Forall_cons in Hall as [Hop Hall].
    destruct (call fuel st op) as [st1|] eqn:E; [|done].
    destruct (call_size _ _ _ _ E) as [H1 H2].
    apply IH; [congruence|congruence|done|].
    by eapply agrees_call.
Qed.
End truthful_calls.

(** ** Well-formed states *)

Section well_formedness.
Implicit Types (s d : Sentence) (st : AI) (c cell : Cell).

Lemma well_formed_init h w : well_formed (init h w).
Proof. unfold well_formed, clean, init. simpl. set_solver. Qed.

Lemma well_formed_mark_mine st c :
  well_formed st → well_formed (mark_mine st c).
Proof.
  intros [Hmv Hc]. split; [done|].
  intros s' (s&->&Hin)%list_elem_of_fmap. specialize (Hc s Hin).
  rewrite sentence_mark_mine_cells. simpl. set_solver.
Qed.

Lemma well_formed_mark_safe st c :
  well_formed st → well_formed (mark_safe st c).
Proof.
  intros [Hmv Hc]. split; [simpl; set_solver|].
  intros s' (s&->&Hin)%list_elem_of_fmap. specialize (Hc s Hin).
  rewrite sentence_mark_safe_cells. simpl. set_solver.
Qed.

Lemma well_formed_observe st cell count :
  well_formed st → well_formed (observe st cell count).
Proof.
  intros [Hmv Hc]. unfold observe.
  set (stA := mark_safe (add_move st cell) cell).
  assert (well_formed stA) as [HmvA HcA].
  { split; [simpl; set_solver|].
    intros s' (s&->&Hin)%list_elem_of_fmap. specialize (Hc s Hin).
    rewrite sentence_mark_safe_cells. simpl. set_solver. }
  pose proof (scan_closed stA cell count) as Hscan. simpl in Hscan.
  destruct (scan stA cell count) as [nbs k]. injection Hscan as -> ->.
  case_bool_decide; [|done]. case_decide; [done|].
  split; [done|].
  intros s [Hin| ->%list_elem_of_singleton]%elem_of_app; [by apply HcA|].
  simpl. set_solver.
Qed.

Lemma well_formed_pass st : well_formed st → well_formed (pass st).1.
Proof.
  intros [Hmv _]. split; [|apply tidy_clean, pass_tidy].
  destruct (pass_frame st) as (_&_&H1&_&H2). rewrite H1, H2. set_solver.
Qed.

Lemma well_formed_loop fuel st st' :
  well_formed st → loop fuel st = Some st' → well_formed st'.
Proof. apply (loop_invariant well_formed), well_formed_pass. Qed.

Lemma well_formed_call fuel st op st' :
  well_formed st → call fuel st op = Some st' → well_formed st'.
Proof.
  intros Hwf. destruct op as [cell count|cell|cell]; simpl.
  - apply well_formed_loop. by apply well_formed_observe.
  - intros [= <-]. by apply well_formed_mark_mine.
  - intros [= <-]. by apply well_formed_mark_safe.
Qed.

Lemma well_formed_calls fuel st ops st' :
  well_formed st → calls fuel st ops = Some st' → well_formed st'.
Proof.
  revert st. induction ops as [|op ops IH]; intros st Hwf; simpl.
  - by intros [= <-].
  - destruct (call fuel st op) as [st1|] eqn:E; [|done].
    apply IH. by eapply well_formed_call.
Qed.

Lemma reachable_well_formed st : reachable st → well_formed st.
Proof.
  intros (h&w&fuel&ops&H).
  eapply well_formed_calls; [apply well_formed_init|done].
Qed.
End well_formedness.

(** ** A probe on record stays on record *)

Section record.
Variables (cell : Cell) (count : Z).
Implicit Types (s d : Sentence) (st : AI) (c : Cell).

Lemma probe_sentence_closed st :
  let N := neighbours (height st) (width st) cell in
  probe_sentence st cell count =
  mkSentence (N ∖ (moves_made st ∪ safes st ∪ mines st))
             (count - len (N ∩ mines st)).
Proof. intros N. unfold probe_sentence. by rewrite scan_closed. Qed.

Lemma probe_mark_mine st c :
  c ∉ moves_made st ∪ safes st ∪ mines st →
  probe_sentence (mark_mine st c) cell count =
  Sentence.mark_mine (probe_sentence st cell count) c.
Proof.
  intros Hc. rewrite !probe_sentence_closed. simpl.
  set (N := neighbours (height st) (width st) cell).
  unfold Sentence.mark_mine. simpl. case_decide as HcN.
  - f_equal; [set_solver|].
    assert (N ∩ ({[c]} ∪ mines st) = {[c]} ∪ N ∩ mines st) as ->
      by set_solver.
    rewrite len_insert by set_solver. lia.
  - f_equal; [set_solver|].
    assert (N ∩ ({[c]} ∪ mines st) = N ∩ mines st) as -> by set_solver.
    done.
Qed.

Lemma probe_mark_safe st c :
  c ∉ moves_made st ∪ safes st →
  probe_sentence (mark_safe st c) cell count =
  Sentence.mark_safe (probe_sentence st cell count) c.
Proof.
  intros Hc. rewrite !probe_sentence_closed. simpl.
  set (N := neighbours (height st) (width st) cell).
  unfold Sentence.mark_safe. simpl. case_decide as HcN.
  - f_equal. set_solver.
  - f_equal. apply set_eq. intros c'. destruct (decide (c' = c)); set_solver.
Qed.

Lemma probe_set_knowledge st kb :
  probe_sentence (set_knowledge st kb) cell count =
  probe_sentence st cell count.
Proof. by rewrite !probe_sentence_closed. Qed.

Lemma recorded_mark_mine st c :
  c ∉ moves_made st ∪ safes st ∪ mines st →
  recorded cell count st → recorded cell count (mark_mine st c).
Proof.
  intros Hc (Hmv&Hs&Hk). split_and!; [done|done|].
  rewrite probe_mark_mine by done.
  generalize dependent (probe_sentence st cell count). intros P Hk Hne.
  unfold mark_mine; cbn [knowledge].
  apply list_elem_of_fmap. exists P.
  split; [done|]. apply Hk. rewrite sentence_mark_mine_cells in Hne.
  set_solver.
Qed.

Lemma recorded_mark_safe st c :
  c ∉ moves_made st ∪ safes st →
  recorded cell count st → recorded cell count (mark_safe st c).
Proof.
  intros Hc (Hmv&Hs&Hk).
  split_and!; [done|clear Hk; unfold mark_safe; cbn [safes]; set_solver|].
  rewrite probe_mark_safe by done.
  generalize dependent (probe_sentence st cell count). intros P Hk Hne.
  unfold mark_safe; cbn [knowledge].
  apply list_elem_of_fmap. exists P.
  split; [done|]. apply Hk. rewrite sentence_mark_safe_cells in Hne.
  set_solver.
Qed.

Lemma recorded_observe st : recorded cell count (observe st cell count).
Proof.
  unfold observe, recorded.
  set (stA := mark_safe (add_move st cell) cell).
  assert (cell ∈ moves_made stA ∧ cell ∈ safes stA) as [Hmv Hs]
    by (unfold stA, mark_safe, add_move; cbn [moves_made safes]; set_solver).
  assert (∀ kb, probe_sentence (set_knowledge stA kb) cell count =
                mkSentence (scan stA cell count).1 (scan stA cell count).2)
    as Hprobe by (intros kb; by rewrite probe_set_knowledge).
  assert (probe_sentence stA cell count =
          mkSentence (scan stA cell count).1 (scan stA cell count).2)
    as Hprobe' by done.
  destruct (scan stA cell count) as [nbs k].
  cbn [fst snd] in Hprobe, Hprobe'.
  case_bool_decide as Hlen; [case_decide as Hin|].
  - rewrite Hprobe'. cbn [cells]. split_and!; [done..|]. by intros _.
  - rewrite Hprobe. unfold set_knowledge. cbn [cells moves_made safes knowledge].
    split_and!; [done..|].
    intros _. apply elem_of_app. right. left.
  - rewrite Hprobe'. cbn [cells]. split_and!; [done..|].
    by intros Hne%len_pos.
Qed.

Lemma recorded_mark_all st :
  well_formed st → recorded cell count st →
  recorded cell count (mark_all st).1.
Proof.
  intros Hwf Hrec. unfold mark_all.
  set (nm := collect Sentence.known_mines (knowledge st)).
  set (ns := collect Sentence.known_safes (knowledge st)).
  assert (let r := foldl mark_new_mine (st, false) (set_iter nm) in
          well_formed r.1 ∧ recorded cell count r.1 ∧ safes r.1 = safes st)
    as (Hwf1&Hrec1&_).
  { apply (foldl_invariant
             (λ p, well_formed p.1 ∧ recorded cell count p.1 ∧
                   safes p.1 = safes st)); [done|].
    intros [st1 u] c Hc%set_iter_elem (Hwf1&Hrec1&Hs1). simpl in *.
    unfold mark_new_mine. simpl. case_decide as Hm; [|done]. simpl.
    split_and!; [by apply well_formed_mark_mine| |done].
    apply recorded_mark_mine; [|done].
    assert (c ∉ safes st) as Hcs.
    { apply collect_elem in Hc as (s&Hin&Hc%known_mines_elem).
      destruct Hwf as [_ Hcl]. specialize (Hcl s Hin). set_solver. }
    destruct Hwf1 as [Hmv1 _]. rewrite <-Hs1 in Hcs. set_solver. }
  set (r := foldl mark_new_mine (st, false) (set_iter nm)) in *.
  assert (let r' := foldl mark_new_safe r (set_iter ns) in
          well_formed r'.1 ∧ recorded cell count r'.1) as [_ H]; [|done].
  apply (foldl_invariant
           (λ p, well_formed p.1 ∧ recorded cell count p.1)); [done|].
  intros [st2 u] c _ (Hwf2&Hrec2). simpl in *.
  unfold mark_new_safe. simpl. case_decide as Hs; [|done]. simpl.
  split; [by apply well_formed_mark_safe|].
  apply recorded_mark_safe; [|done].
  destruct Hwf2 as [Hmv2 _]. set_solver.
Qed.

Lemma well_formed_mark_all st : well_formed st → well_formed (mark_all st).1.
Proof.
  intros Hwf. unfold mark_all.
  apply (foldl_invariant (λ p, well_formed p.1)).
  - apply (foldl_invariant (λ p, well_formed p.1)); [done|].
    intros [st1 u] c _ H. unfold mark_new_mine. case_decide; [|done].
    by apply well_formed_mark_mine.
  - intros [st1 u] c _ H. unfold mark_new_safe. case_decide; [|done].
    by apply well_formed_mark_safe.
Qed.

Lemma pass_fst st :
  (pass st).1 =
  set_knowledge (mark_all st).1
    (prune (mark_all st).1 ++ infer (prune (mark_all st).1)).
Proof. done. Qed.

Lemma recorded_pass st :
  well_formed st → recorded cell count st →
  recorded cell count (pass st).1.
Proof.
  intros Hwf Hrec.
  destruct (well_formed_mark_all st Hwf) as [_ Hcl].
  destruct (recorded_mark_all st Hwf Hrec) as (Hmv&Hs&Hk).
  rewrite pass_fst. unfold recorded. rewrite probe_set_knowledge.
  generalize dependent (probe_sentence (mark_all st).1 cell count).
  intros P Hk.
  unfold set_knowledge; cbn [moves_made safes knowledge].
  split_and!; [done..|]. intros Hne. apply elem_of_app. left.
  apply prune_elem. exists P. specialize (Hk Hne).
  rewrite (reduce_clean _ _ (Hcl _ Hk)). done.
Qed.

Lemma recorded_loop fuel st st' :
  well_formed st → recorded cell count st → loop fuel st = Some st' →
  recorded cell count st'.
Proof.
  intros Hwf Hrec Hl.
  assert (well_formed st' ∧ recorded cell count st') as [_ H]; [|done].
  revert Hl.
  apply (loop_invariant (λ st, well_formed st ∧ recorded cell count st));
    [|done].
  intros st1 [H1 H2]. split; [by apply well_formed_pass|by apply recorded_pass].
Qed.

(** In a well-formed state that has the probe on record, the statements
    before the loop change nothing. *)
Lemma observe_recorded st :
  well_formed st → recorded cell count st → observe st cell count = st.
Proof.
  intros [Hmvs Hcl] (Hmv&Hs&Hk). unfold observe.
  assert (mark_safe (add_move st cell) cell = st) as ->.
  { clear Hk. destruct st as [h w mv mi sa kb].
    unfold mark_safe, add_move. simpl in *.
    f_equal; [set_solver|set_solver|].
    rewrite <-(list_fmap_id kb) at 2. apply list_fmap_ext.
    intros i s Hi. simpl. apply sentence_mark_safe_absent.
    apply list_elem_of_lookup_2 in Hi. specialize (Hcl s Hi). simpl in Hcl.
    set_solver. }
  unfold probe_sentence in Hk. destruct (scan st cell count) as [nbs k].
  simpl in Hk.
  case_bool_decide as Hlen; [|done]. rewrite decide_True; [done|].
  apply Hk. by apply len_pos.
Qed.
End record.

(** * The claims about the inference loop *)

Lemma len_triple (A B C : Cell) :
  A ≠ B → A ≠ C → B ≠ C → len ({[A; B; C]} : gset Cell) = 3.
Proof.
  intros. unfold len.
  rewrite !size_union, !size_singleton by set_solver. done.
Qed.

Lemma len_single (A : Cell) : len ({[A]} : gset Cell) = 1.
Proof. unfold len. by rewrite size_singleton. Qed.

(** A cell that a sentence of the knowledge gives away as safe is in
    [safes] when the loop stops. *)
Lemma loop_marks_known_safe fuel st st' c :
  c ∈ collect Sentence.known_safes (knowledge st) →
  loop fuel st = Some st' → c ∈ safes st'.
Proof.
  intros Hc. destruct fuel as [|fuel]; [done|]. rewrite loop_step.
  assert (c ∈ safes (pass st).1) as Hs.
  { destruct (pass_frame st) as (_&_&_&_&H). rewrite H. set_solver. }
  destruct (pass st).2.
  - intros (_&H&_)%loop_grows. set_solver.
  - by intros [= <-].
Qed.

(** C1.  The knowledge after an iteration is the pruned knowledge followed
    by the new inferences.  For two sentences [A], [B] of the pruned
    knowledge with the cells of [A] a strict subset of the cells of [B],
    the sentence with cells [B.cells - A.cells] and count
    [B.count - A.count] is among the new inferences exactly when its count
    is between zero and the number of its cells, it has cells, and the
    knowledge holds no equal sentence; every new inference arises so from
    two different sentences; and no sentence is inferred twice in an
    iteration.  From [{A,B,C} = 1] and [{A,B} = 1] the first iteration
    infers [{C} = 0], and when the loop stops [C] is in [safes]. *)
Theorem subset_inference_spec :
  (∀ st : AI,
     knowledge (pass st).1 =
     prune (mark_all st).1 ++ infer (prune (mark_all st).1)) ∧
  (∀ (kb : list Sentence) (A B : Sentence),
     A ∈ kb → B ∈ kb → cells A ⊂ cells B →
     (derived A B ∈ infer kb ↔
      in_range (derived A B) ∧ cells (derived A B) ≠ ∅ ∧ derived A B ∉ kb)) ∧
  (∀ (kb : list Sentence) (d : Sentence),
     d ∈ infer kb →
     ∃ A B, A ∈ kb ∧ B ∈ kb ∧ A ≠ B ∧ cells A ⊂ cells B ∧ d = derived A B) ∧
  (∀ kb : list Sentence, NoDup (infer kb)) ∧
  (∀ (h w : Z) (A B C : Cell), A ≠ B → A ≠ C → B ≠ C →
     let st := set_knowledge (init h w)
                 [mkSentence {[A; B; C]} 1; mkSentence {[A; B]} 1] in
     mkSentence {[C]} 0 ∈ knowledge (pass st).1 ∧
     ∃ fuel st', loop fuel st = Some st' ∧ C ∈ safes st').
Proof.
  split_and!.
  - apply pass_knowledge.
  - intros kb A B HA HB Hsub. rewrite infer_elem. split.
    + intros (s1&s2&_&_&_&_&Hr&Hn). split_and!; [done| |done].
      simpl. by apply strict_difference_nonempty.
    + intros (Hr&_&Hn). exists A, B. by split_and!.
  - intros kb d (s1&s2&H1&H2&Hsub&->&_&_)%infer_elem.
    exists s1, s2. split_and!; try done.
    intros ->. destruct Hsub as [_ H]. by apply H.
  - apply infer_NoDup.
  - intros h w A B C HAB HAC HBC st.
    set (sABC := mkSentence {[A; B; C]} 1). set (sAB := mkSentence {[A; B]} 1).
    assert (knowledge st = [sABC; sAB]) as Hkb by done.
    assert (safes st = ∅ ∧ mines st = ∅) as [Hsafes Hmines] by done.
    assert (tidy st) as Htidy.
    { intros s. rewrite Hkb, Hsafes, Hmines.
      intros [->|[->|?%elem_of_nil]%elem_of_cons]%elem_of_cons; [| |done];
        simpl; split; set_solver. }
    assert ((mark_all st).2 = false) as Hflag.
    { apply not_true_iff_false. rewrite mark_all_flag, Hkb.
      intros [(c&(s&Hs&Hc)%collect_elem&_)|(c&(s&Hs&Hc)%collect_elem&_)].
      - apply known_mines_elem in Hc as (_&_&Hc).
        apply elem_of_cons in Hs as [->|[->|?%elem_of_nil]%elem_of_cons];
          [| |done]; simpl in Hc.
        + rewrite len_triple in Hc by done. lia.
        + rewrite len_pair in Hc by done. lia.
      - apply known_safes_elem in Hc as (_&Hc).
        apply elem_of_cons in Hs as [->|[->|?%elem_of_nil]%elem_of_cons];
          [| |done]; simpl in Hc; lia. }
    assert (mkSentence {[C]} 0 ∈ infer (knowledge st)) as Hinf.
    { apply infer_elem. exists sAB, sABC. rewrite Hkb.
      split_and!; [set_solver|set_solver|]. unfold yields. split_and!.
      - split; [set_solver|]. simpl. intros H. specialize (H C). set_solver.
      - unfold derived. simpl. f_equal. apply set_eq. intros c.
        destruct (decide (c = A)), (decide (c = B)); set_solver.
      - unfold in_range. simpl. rewrite len_single. lia.
      - intros [H|[H|?%elem_of_nil]%elem_of_cons]%elem_of_cons; [| |done].
        + discriminate H.
        + discriminate H. }
    pose proof (pass_tidy_idle st Htidy Hflag) as Hp.
    assert (mkSentence {[C]} 0 ∈ knowledge (pass st).1) as Hin.
    { rewrite Hp. unfold set_knowledge; cbn [fst knowledge].
      apply elem_of_app. by right. }
    split; [done|].
    destruct (loop_terminates st) as (fuel&st'&Hl).
    exists fuel, st'. split; [done|].
    destruct fuel as [|fuel]; [done|]. rewrite loop_step in Hl.
    assert ((pass st).2 = true) as Htrue.
    { rewrite Hp. cbn [snd]. apply bool_decide_eq_true_2. intros He.
      rewrite He in Hinf. by apply elem_of_nil in Hinf. }
    rewrite Htrue in Hl.
    eapply loop_marks_known_safe; [|done].
    apply collect_elem. exists (mkSentence {[C]} 0). split; [done|].
    apply known_safes_elem. simpl. split; [set_solver|done].
Qed.

Example example_run : calls 10 (init 3 2) example_probes = Some example_state.
Proof. vm_compute. reflexivity. Qed.

Example example_truthful : Forall (truthful 3 2 example_board) example_probes.
Proof.
  unfold example_probes.
  repeat (apply Forall_cons; split; [split|]); try apply Forall_nil;
    try (vm_compute; reflexivity);
    apply (bool_decide_unpack _); vm_compute; exact I.
Qed.

(** Goals about concrete finite sets and lists are decided by evaluation. *)
Ltac by_evaluation := apply (bool_decide_unpack _); vm_compute; exact I.

(** C2.  The [while] loop of [add_knowledge] stops from every state, so
    [add_knowledge] returns for every state, cell and count: some number of
    iterations is enough, and any larger allowance gives the same state. *)
Theorem add_knowledge_terminates :
  ∀ (st : AI) (cell : Cell) (count : Z),
    (∃ (fuel : nat) (st' : AI), loop fuel st = Some st') ∧
    ∃ (fuel : nat) (st' : AI),
      add_knowledge fuel st cell count = Some st' ∧
      ∀ fuel' : nat, (fuel ≤ fuel')%nat →
        add_knowledge fuel' st cell count = Some st'.
Proof.
  intros st cell count. split; [apply loop_terminates|].
  destruct (loop_terminates (observe st cell count)) as (fuel&st'&Hl).
  exists fuel, st'. split; [done|].
  intros fuel' Hle. unfold add_knowledge. by eapply loop_fuel_mono.
Qed.

(** C3.  When every call tells the truth about one board, then in the
    state that any sequence of calls on a fresh player returns, every
    sentence has a count between zero and the number of its cells, and no
    cell of a sentence is in [safes] or in [mines]. *)
Theorem truthful_calls_sound :
  ∀ (h w : Z) (board : gset Cell) (fuel : nat) (ops : list Call) (st : AI),
    Forall (truthful h w board) ops →
    calls fuel (init h w) ops = Some st →
    ∀ s : Sentence, s ∈ knowledge st →
      0 ≤ count s ≤ len (cells s) ∧
      ∀ c : Cell, c ∈ cells s → c ∉ safes st ∧ c ∉ mines st.
Proof.
  intros h w board fuel ops st Hall Hrun s Hs.
  assert (agrees board st) as Ha.
  { eapply (agrees_calls h w board); [..|done]; try done. apply agrees_init. }
  destruct (agrees_sound _ _ Ha s Hs) as [Hr Hd]. split; [done|].
  intros c Hc. set_solver.
Qed.

Lemma truthful_calls_sound_witness :
  Forall (truthful 3 2 example_board) example_probes ∧
  calls 10 (init 3 2) example_probes = Some example_state ∧
  ∀ s : Sentence, s ∈ knowledge example_state →
    0 ≤ count s ≤ len (cells s) ∧
    ∀ c : Cell, c ∈ cells s → c ∉ safes example_state ∧ c ∉ mines example_state.
Proof.
  split; [exact example_truthful|]. split; [exact example_run|].
  exact (truthful_calls_sound 3 2 example_board 10 example_probes
           example_state example_truthful example_run).
Defined.

(** Calls that no board explains can move a cell from one class to the
    other, since the player checks nothing: on a board of one row and two
    columns the probe of [(0, 0)] with count 1 puts [(0, 1)] into [mines],
    and a probe of [(0, 1)], the cell just proved to be a mine, puts it
    into [safes] as well. *)
Lemma untruthful_probes_reclassify :
  ∃ st1 st2 : AI,
    calls 10 (init 1 2) [AddKnowledge (0, 0) 1] = Some st1 ∧
    calls 10 st1 [AddKnowledge (0, 1) 0] = Some st2 ∧
    ((0, 1) ∈ mines st1 ∧ (0, 1) ∉ safes st1 ∧ (0, 1) ∈ safes st2) ∧
    ¬ keeps_classes st1 st2.
Proof.
  eexists _, _. split; [vm_compute; reflexivity|].
  split; [vm_compute; reflexivity|].
  assert (((0, 1) : Cell) ∈ ({[ (0, 1) ]} ∪ ∅ : gset Cell) ∧
          ((0, 1) : Cell) ∉ ({[ (0, 0) ]} ∪ ∅ : gset Cell)) as [H1 H2]
    by (split; by_evaluation).
  split.
  - split_and!; by_evaluation.
  - intros [_ H]. specialize (H (0, 1)).
    assert (((0, 1) : Cell) ∉ ({[ (0, 0) ]} : gset Cell)) as Hn by by_evaluation.
    apply Hn. revert H. vm_compute. intros H. by apply H.
Qed.

Example flagging_run_before :
  calls 10 (init 1 4) flagging_calls_before = Some flagging_state_before.
Proof. vm_compute. reflexivity. Qed.

Example flagging_run_after :
  calls 10 flagging_state_before flagging_calls_after
  = Some flagging_state_after.
Proof. vm_compute. reflexivity. Qed.

Example flagging_truthful :
  Forall (truthful 1 4 flagging_board)
    (flagging_calls_before ++ flagging_calls_after).
Proof.
  unfold flagging_calls_before, flagging_calls_after. simpl.
  repeat (apply Forall_cons; split); try apply Forall_nil;
    unfold truthful; try (split; [|vm_compute; reflexivity]);
    apply (bool_decide_unpack _); vm_compute; exact I.
Qed.

(** C4.  From any state that calls on a fresh player reach to any state
    that further calls reach, [moves_made], [safes] and [mines] only grow:
    no element is ever removed.  And when the calls are within the
    player's contract, that is, they tell the truth about one board, a
    cell that was in [safes] is not in [mines] later and a cell that was in
    [mines] is not in [safes] later; [safes] and [mines] stay disjoint. *)
Theorem sets_grow_classes_kept :
  ∀ (h w : Z) (fuel : nat) (ops1 ops2 : list Call) (st1 st2 : AI),
    calls fuel (init h w) ops1 = Some st1 →
    calls fuel st1 ops2 = Some st2 →
    (moves_made st1 ⊆ moves_made st2 ∧
     safes st1 ⊆ safes st2 ∧ mines st1 ⊆ mines st2) ∧
    ∀ board : gset Cell,
      Forall (truthful h w board) (ops1 ++ ops2) →
      (∀ c : Cell, c ∈ safes st1 → c ∉ mines st2) ∧
      (∀ c : Cell, c ∈ mines st1 → c ∉ safes st2) ∧
      keeps_classes st1 st2 ∧ safes st2 ## mines st2.
Proof.
  intros h w fuel ops1 ops2 st1 st2 H1 H2.
  pose proof (calls_grows _ _ _ _ H2) as Hg. split; [done|].
  intros board Hall.
  assert (agrees board st2) as (Hm&Hs&_).
  { eapply (agrees_calls h w board fuel (init h w) (ops1 ++ ops2));
      [done|done|done|apply agrees_init|].
    by rewrite calls_app, H1. }
  destruct Hg as (_&Hgs&Hgm). unfold keeps_classes.
  split_and!; set_solver.
Qed.

Lemma sets_grow_classes_kept_witness :
  calls 10 (init 1 4) flagging_calls_before = Some flagging_state_before ∧
  calls 10 flagging_state_before flagging_calls_after
    = Some flagging_state_after ∧
  Forall (truthful 1 4 flagging_board)
    (flagging_calls_before ++ flagging_calls_after) ∧
  ((0, 2) ∈ mines flagging_state_before ∧
   (0, 1) ∈ safes flagging_state_before) ∧
  (moves_made flagging_state_before ⊆ moves_made flagging_state_after ∧
   safes flagging_state_before ⊆ safes flagging_state_after ∧
   mines flagging_state_before ⊆ mines flagging_state_after) ∧
  (∀ c : Cell, c ∈ safes flagging_state_before →
     c ∉ mines flagging_state_after) ∧
  (∀ c : Cell, c ∈ mines flagging_state_before →
     c ∉ safes flagging_state_after) ∧
  keeps_classes flagging_state_before flagging_state_after ∧
  safes flagging_state_after ## mines flagging_state_after.
Proof.
  unshelve refine
    (let H := sets_grow_classes_kept 1 4 10 flagging_calls_before
                flagging_calls_after flagging_state_before
                flagging_state_after flagging_run_before flagging_run_after in
     conj flagging_run_before (conj flagging_run_after
       (conj flagging_truthful (conj (conj _ _)
          (conj (proj1 H) (proj2 H flagging_board flagging_truthful)))))).
  - by_evaluation.
  - by_evaluation.
Defined.

(** C5.  The pruning step keeps a sentence only if it has cells, whatever
    its count.  On a board of one row and two columns, the probe of
    [(0, 0)] with count 2 leaves the sentence [{(0, 1)} = 2]; the probe of
    [(0, 1)] that follows empties it, to [{} = 2], before the loop, and the
    loop drops it: the knowledge comes back empty. *)
Theorem empty_sentence_dropped_whatever_count :
  (∀ (st : AI) (d : Sentence), d ∈ prune st → cells d ≠ ∅) ∧
  (∀ st : AI, knowledge st = [mkSentence ∅ 2] → prune st = []) ∧
  ∃ st1 st2 : AI,
    calls 10 (init 1 2) [AddKnowledge (0, 0) 2] = Some st1 ∧
    knowledge st1 = [mkSentence {[ (0, 1) ]} 2] ∧
    knowledge (observe st1 (0, 1) 0) = [mkSentence ∅ 2] ∧
    add_knowledge 10 st1 (0, 1) 0 = Some st2 ∧
    knowledge st2 = [].
Proof.
  split_and!.
  - by intros st d (_&_&_&H)%prune_elem.
  - intros st Hk. unfold prune. rewrite Hk. simpl.
    rewrite filter_cons, decide_False; [done|].
    rewrite reduce_cells. simpl. rewrite len_pos. intros H. apply H. set_solver.
  - eexists _, _. split; [vm_compute; reflexivity|].
    split_and!; vm_compute; reflexivity.
Qed.

(** C6, as the claim states it, fails: the three probes of the example
    game, truthful about a board with one mine, return a knowledge that
    holds the sentence [{(1, 0), (1, 1)} = 1] twice. *)
Lemma duplicate_sentences_counterexample :
  Forall (truthful 3 2 example_board) example_probes ∧
  calls 10 (init 3 2) example_probes = Some example_state ∧
  knowledge example_state
    = [mkSentence {[ (1, 0); (1, 1) ]} 1; mkSentence {[ (1, 0); (1, 1) ]} 1] ∧
  ¬ NoDup (knowledge example_state).
Proof.
  split; [exact example_truthful|]. split; [exact example_run|].
  split; [done|]. simpl. intros H. apply NoDup_cons in H as [H _].
  apply H. left.
Qed.

(** C6, amended.  No sentence is appended to a knowledge that holds an
    equal one: the statements before the loop leave the knowledge as the
    marking of the probed cell left it, or append one sentence that it
    lacks; an iteration appends to the pruned knowledge the new
    inferences, which differ from each other and from every sentence of
    the pruned knowledge; so both appends keep a knowledge without equal
    sentences free of them.  Sentences that the removal of classified
    cells makes equal both stay. *)
Theorem appended_sentences_are_new :
  (∀ (st : AI) (cell : Cell) (count : Z),
     let kb := knowledge (mark_safe (add_move st cell) cell) in
     (knowledge (observe st cell count) = kb ∨
      ∃ s, s ∉ kb ∧ knowledge (observe st cell count) = kb ++ [s]) ∧
     (NoDup kb → NoDup (knowledge (observe st cell count)))) ∧
  (∀ st : AI,
     let kb := prune (mark_all st).1 in
     knowledge (pass st).1 = kb ++ infer kb ∧
     NoDup (infer kb) ∧ (∀ d, d ∈ infer kb → d ∉ kb) ∧
     (NoDup kb → NoDup (knowledge (pass st).1))).
Proof.
  split.
  - intros st cell count kb.
    assert (knowledge (observe st cell count) = kb ∨
            ∃ s, s ∉ kb ∧ knowledge (observe st cell count) = kb ++ [s]) as H.
    { unfold observe. fold kb. destruct (scan _ _ _) as [nbs k].
      case_bool_decide; [|by left]. case_decide; [by left|].
      right. by eexists. }
    split; [done|]. intros Hnd. destruct H as [->|(s&Hs&->)]; [done|].
    apply NoDup_app. split_and!; [done| |apply NoDup_singleton].
    by intros d Hd ->%list_elem_of_singleton.
  - intros st kb. rewrite pass_knowledge. fold kb.
    split_and!; [done|apply infer_NoDup|apply infer_fresh|].
    intros Hnd. apply NoDup_app. split_and!; [done| |apply infer_NoDup].
    intros d Hd Hi. by apply infer_fresh in Hi.
Qed.

(** C9.  In a state that calls on a fresh player reach, when
    [add_knowledge] returns, the same call again returns the state
    unchanged, and so does the loop alone: one more iteration changes
    nothing and leaves [update_needed] false. *)
Theorem add_knowledge_idempotent :
  ∀ (st : AI) (cell : Cell) (count : Z) (fuel : nat) (st' : AI),
    reachable st →
    add_knowledge fuel st cell count = Some st' →
    add_knowledge fuel st' cell count = Some st' ∧
    loop fuel st' = Some st' ∧
    pass st' = (st', false).
Proof.
  intros st cell count fuel st' Hwf%reachable_well_formed Hrun.
  unfold add_knowledge in *.
  pose proof (well_formed_observe st cell count Hwf) as Hwf0.
  pose proof (recorded_observe cell count st) as Hrec0.
  pose proof (well_formed_loop _ _ _ Hwf0 Hrun) as Hwf'.
  pose proof (recorded_loop cell count _ _ _ Hwf0 Hrec0 Hrun) as Hrec'.
  pose proof (loop_result_stable _ _ _ (proj2 Hwf0) Hrun) as Hstable.
  assert (loop fuel st' = Some st') as Hloop.
  { destruct fuel as [|fuel]; [done|]. by rewrite loop_step, Hstable. }
  rewrite (observe_recorded cell count st' Hwf' Hrec'). done.
Qed.

Lemma add_knowledge_idempotent_witness :
  reachable example_midstate ∧
  add_knowledge 10 example_midstate (2, 0) 1 = Some example_state ∧
  add_knowledge 10 example_state (2, 0) 1 = Some example_state ∧
  loop 10 example_state = Some example_state ∧
  pass example_state = (example_state, false).
Proof.
  unshelve refine
         (let H0 : calls 10 (init 3 2) (take 2 example_probes)
                   = Some example_midstate := _ in
          let H1 : reachable example_midstate :=
            ex_intro _ 3 (ex_intro _ 2 (ex_intro _ 10%nat
              (ex_intro _ (take 2 example_probes) H0))) in
          let H2 : add_knowledge 10 example_midstate (2, 0) 1
                   = Some example_state := _ in
          conj H1 (conj H2
            (add_knowledge_idempotent example_midstate (2, 0) 1 10
               example_state H1 H2))).
  - vm_compute. reflexivity.
  - vm_compute. reflexivity.
Defined.

(** * Further properties of the board and of the player *)

(** ** Neighbourhoods *)

Lemma around_elem (cell c : Cell) :
  c ∈ around cell ↔
  cell.1 - 1 ≤ c.1 ≤ cell.1 + 1 ∧ cell.2 - 1 ≤ c.2 ≤ cell.2 + 1.
Proof.
  destruct cell as [x y], c as [i j]. unfold around. simpl.
  rewrite !elem_of_cons, elem_of_nil. split.
  - intros H. repeat (destruct H as [H|H]; [inversion H; lia|]). done.
  - intros [Hi Hj].
    assert (i = x - 1 ∨ i = x ∨ i = x + 1) as Hi' by lia.
    assert (j = y - 1 ∨ j = y ∨ j = y + 1) as Hj' by lia.
    destruct Hi' as [->|[->| ->]], Hj' as [->|[->| ->]]; tauto.
Qed.

Lemma neighbours_elem (h w : Z) (cell c : Cell) :
  c ∈ neighbours h w cell ↔
  c ≠ cell ∧
  (cell.1 - 1 ≤ c.1 ≤ cell.1 + 1 ∧ cell.2 - 1 ≤ c.2 ≤ cell.2 + 1) ∧
  0 ≤ c.1 < h ∧ 0 ≤ c.2 < w.
Proof.
  unfold neighbours, in_grid.
  rewrite elem_of_list_to_set, list_elem_of_filter, around_elem. tauto.
Qed.

Lemma neighbours_len (h w : Z) (cell : Cell) : len (neighbours h w cell) ≤ 8.
Proof.
  unfold neighbours, len.
  rewrite size_list_to_set by apply NoDup_filter, around_NoDup.
  assert (length (filter (in_grid h w cell) (around cell))
          < length (around cell))%nat as H.
  { apply (length_filter_lt _ _ cell).
    - apply around_elem. lia.
    - intros [H _]. by apply H. }
  assert (length (around cell) = 9%nat) as Hl by done. lia.
Qed.

(** X1.  [nearby_mines] is the number of mines of the board among the
    cells that differ from [cell], lie within one row and one column of it
    and are on the board; it is between 0 and 8, and a mine at [cell]
    itself does not count. *)
Theorem nearby_mines_spec :
  ∀ (h w : Z) (board : gset Cell) (cell : Cell),
    (∀ c : Cell,
       c ∈ neighbours h w cell ↔
       c ≠ cell ∧
       (cell.1 - 1 ≤ c.1 ≤ cell.1 + 1 ∧ cell.2 - 1 ≤ c.2 ≤ cell.2 + 1) ∧
       0 ≤ c.1 < h ∧ 0 ≤ c.2 < w) ∧
    nearby_mines h w board cell = len (neighbours h w cell ∩ board) ∧
    0 ≤ nearby_mines h w board cell ≤ 8 ∧
    nearby_mines h w ({[cell]} ∪ board) cell = nearby_mines h w board cell.
Proof.
  intros h w board cell. split_and!.
  - apply neighbours_elem.
  - apply nearby_mines_closed.
  - rewrite nearby_mines_closed. apply len_nonneg.
  - rewrite nearby_mines_closed.
    etrans; [apply (len_subseteq _ (neighbours h w cell))
            |apply neighbours_len].
    set_solver.
  - rewrite !nearby_mines_closed. f_equal. apply set_eq. intros c.
    rewrite !elem_of_intersection, elem_of_union, elem_of_singleton.
    rewrite neighbours_elem. naive_solver.
Qed.

(** X2.  The neighbour loop of [add_knowledge] collects exactly the
    neighbours of the cell that are neither moves nor classified, at most
    eight and never the cell itself, and lowers the count by the number of
    neighbours that are known mines. *)
Theorem neighbour_loop_spec :
  ∀ (st : AI) (cell : Cell) (count : Z),
    (scan st cell count).1 = undetermined st cell ∧
    (scan st cell count).2
      = count - len (neighbours (height st) (width st) cell ∩ mines st) ∧
    len (scan st cell count).1 ≤ 8 ∧
    cell ∉ (scan st cell count).1.
Proof.
  intros st cell count. rewrite scan_closed. simpl. unfold undetermined.
  split_and!; [done|done| |].
  - etrans; [apply (len_subseteq _ (neighbours (height st) (width st) cell))
            |apply neighbours_len].
    set_solver.
  - intros [H _]%elem_of_difference. apply neighbours_elem in H. tauto.
Qed.

(** ** Sentences that are true of a board *)

Lemma true_on_in_range (board : gset Cell) (s : Sentence) :
  true_on board s → in_range s.
Proof.
  unfold true_on, in_range. intros ->. split; [apply len_nonneg|].
  apply len_subseteq. set_solver.
Qed.

Lemma true_on_known_mines (board : gset Cell) (s : Sentence) :
  true_on board s → (Sentence.known_mines s).1 ⊆ board.
Proof.
  unfold true_on. intros Ht c (Hc&_&Hcnt)%known_mines_elem.
  assert (cells s ∩ board = cells s) as Heq.
  { apply set_subseteq_size_eq; [set_solver|]. unfold len in *. lia. }
  set_solver.
Qed.

Lemma true_on_known_safes (board : gset Cell) (s : Sentence) :
  true_on board s → (Sentence.known_safes s).1 ## board.
Proof.
  unfold true_on. intros Ht c (Hc&Hcnt)%known_safes_elem Hb.
  assert (cells s ∩ board = ∅) as Heq by (apply len_zero; lia).
  set_solver.
Qed.

Lemma true_on_mark_mine (board : gset Cell) (s : Sentence) (c : Cell) :
  c ∈ board → true_on board s → true_on board (Sentence.mark_mine s c).
Proof.
  unfold true_on, Sentence.mark_mine. intros Hc Ht. case_decide; [|done].
  simpl.
  assert (cells s ∩ board = {[c]} ∪ (cells s ∖ {[c]}) ∩ board) as Heq.
  { apply set_eq. intros c'. destruct (decide (c' = c)); set_solver. }
  rewrite Ht, Heq, len_insert by set_solver. lia.
Qed.

Lemma true_on_mark_safe (board : gset Cell) (s : Sentence) (c : Cell) :
  c ∉ board → true_on board s → true_on board (Sentence.mark_safe s c).
Proof.
  unfold true_on, Sentence.mark_safe. intros Hc Ht. case_decide; [|done].
  simpl.
  assert ((cells s ∖ {[c]}) ∩ board = cells s ∩ board) as -> by set_solver.
  done.
Qed.

(** X3.  From a sentence that is true of the board, [known_mines] returns
    mines only and [known_safes] returns no mine; and the count of such a
    sentence is between zero and the number of its cells. *)
Theorem known_cells_sound :
  ∀ (board : gset Cell) (s : Sentence),
    true_on board s →
    (Sentence.known_mines s).1 ⊆ board ∧
    (Sentence.known_safes s).1 ## board ∧
    0 ≤ count s ≤ len (cells s).
Proof.
  intros board s Ht. split_and!.
  - by apply true_on_known_mines.
  - by apply true_on_known_safes.
  - by apply (true_on_in_range board).
  - by apply (true_on_in_range board).
Qed.

Lemma known_cells_sound_witness :
  true_on example_board (mkSentence {[ (1, 0) ]} 1) ∧
  (Sentence.known_mines (mkSentence {[ (1, 0) ]} 1)).1 ⊆ example_board ∧
  (Sentence.known_safes (mkSentence {[ (1, 0) ]} 1)).1 ## example_board ∧
  0 ≤ count (mkSentence {[ (1, 0) ]} 1)
    ≤ len (cells (mkSentence {[ (1, 0) ]} 1)).
Proof.
  unshelve refine
    (let H : true_on example_board (mkSentence {[ (1, 0) ]} 1) := _ in
     conj H (known_cells_sound example_board (mkSentence {[ (1, 0) ]} 1) H)).
  vm_compute. reflexivity.
Defined.

(** X4.  [Sentence.mark_mine] with a mine of the board and
    [Sentence.mark_safe] with a cell that is not a mine keep a true sentence
    true.  After either call the cell is no cell of the sentence, and the
    same call again changes nothing. *)
Theorem sentence_marks_keep_truth :
  ∀ (board : gset Cell) (s : Sentence) (c : Cell),
    true_on board s →
    (c ∈ board → true_on board (Sentence.mark_mine s c)) ∧
    (c ∉ board → true_on board (Sentence.mark_safe s c)) ∧
    c ∉ cells (Sentence.mark_mine s c) ∧
    c ∉ cells (Sentence.mark_safe s c) ∧
    Sentence.mark_mine (Sentence.mark_mine s c) c = Sentence.mark_mine s c ∧
    Sentence.mark_safe (Sentence.mark_safe s c) c = Sentence.mark_safe s c.
Proof.
  intros board s c Ht.
  assert (c ∉ cells (Sentence.mark_mine s c)) as Hm
    by (rewrite sentence_mark_mine_cells; set_solver).
  assert (c ∉ cells (Sentence.mark_safe s c)) as Hs
    by (rewrite sentence_mark_safe_cells; set_solver).
  split_and!; try done.
  - intros Hc. by apply true_on_mark_mine.
  - intros Hc. by apply true_on_mark_safe.
  - by apply sentence_mark_mine_absent.
  - by apply sentence_mark_safe_absent.
Qed.

Lemma sentence_marks_keep_truth_witness :
  true_on example_board (mkSentence {[ (1, 0); (1, 1) ]} 1) ∧
  true_on example_board
    (Sentence.mark_mine (mkSentence {[ (1, 0); (1, 1) ]} 1) (1, 0)).
Proof.
  unshelve refine
    (let H : true_on example_board (mkSentence {[ (1, 0); (1, 1) ]} 1) := _ in
     conj H (proj1 (sentence_marks_keep_truth example_board
                      (mkSentence {[ (1, 0); (1, 1) ]} 1) (1, 0) H) _)).
  - vm_compute. reflexivity.
  - by_evaluation.
Defined.

(** X5.  The subset rule is sound, and its range test never rejects a
    true conclusion: when [s1] and [s2] are true of the board and the cells
    of [s1] are among the cells of [s2], the sentence with the remaining
    cells and the difference of the counts is true of the board, and its
    count is between zero and the number of its cells. *)
Theorem subset_rule_sound :
  ∀ (board : gset Cell) (s1 s2 : Sentence),
    true_on board s1 → true_on board s2 → cells s1 ⊆ cells s2 →
    true_on board (derived s1 s2) ∧
    0 ≤ count (derived s1 s2) ≤ len (cells (derived s1 s2)).
Proof.
  intros board s1 s2 H1 H2 Hsub.
  assert (true_on board (derived s1 s2)) as Ht
    by (by apply agrees_derived).
  split; [done|]. by apply (true_on_in_range board).
Qed.

Lemma subset_rule_sound_witness :
  true_on example_board (mkSentence {[ (1, 0); (1, 1) ]} 1) ∧
  true_on example_board (mkSentence {[ (1, 0); (1, 1); (2, 1) ]} 1) ∧
  true_on example_board
    (derived (mkSentence {[ (1, 0); (1, 1) ]} 1)
             (mkSentence {[ (1, 0); (1, 1); (2, 1) ]} 1)) ∧
  0 ≤ count (derived (mkSentence {[ (1, 0); (1, 1) ]} 1)
                     (mkSentence {[ (1, 0); (1, 1); (2, 1) ]} 1))
    ≤ len (cells (derived (mkSentence {[ (1, 0); (1, 1) ]} 1)
                          (mkSentence {[ (1, 0); (1, 1); (2, 1) ]} 1))).
Proof.
  unshelve refine
    (let H1 : true_on example_board (mkSentence {[ (1, 0); (1, 1) ]} 1) := _ in
     let H2 : true_on example_board
                (mkSentence {[ (1, 0); (1, 1); (2, 1) ]} 1) := _ in
     conj H1 (conj H2
       (subset_rule_sound example_board _ _ H1 H2 _))).
  - vm_compute. reflexivity.
  - vm_compute. reflexivity.
  - by_evaluation.
Defined.

(** ** Marking twice, marking in another order *)

Ltac sentence_mark_cases :=
  unfold Sentence.mark_mine, Sentence.mark_safe;
  repeat (case_decide; simpl in *);
  try done; try (exfalso; set_solver);
  f_equal; try lia; set_solver.

Lemma sentence_mark_mine_comm (s : Sentence) (a b : Cell) :
  Sentence.mark_mine (Sentence.mark_mine s a) b
  = Sentence.mark_mine (Sentence.mark_mine s b) a.
Proof.
  destruct (decide (a = b)) as [->|Hab]; [done|]. sentence_mark_cases.
Qed.

Lemma sentence_mark_safe_comm (s : Sentence) (a b : Cell) :
  Sentence.mark_safe (Sentence.mark_safe s a) b
  = Sentence.mark_safe (Sentence.mark_safe s b) a.
Proof.
  destruct (decide (a = b)) as [->|Hab]; [done|]. sentence_mark_cases.
Qed.

Lemma sentence_mark_mine_safe_comm (s : Sentence) (a b : Cell) :
  a ≠ b →
  Sentence.mark_mine (Sentence.mark_safe s b) a
  = Sentence.mark_safe (Sentence.mark_mine s a) b.
Proof. intros Hab. sentence_mark_cases. Qed.

Lemma mark_mine_comm (st : AI) (a b : Cell) :
  mark_mine (mark_mine st a) b = mark_mine (mark_mine st b) a.
Proof.
  unfold mark_mine. simpl. f_equal; [set_solver|].
  rewrite <-!list_fmap_compose. apply list_fmap_ext. intros i s _. simpl.
  apply sentence_mark_mine_comm.
Qed.

Lemma mark_safe_comm (st : AI) (a b : Cell) :
  mark_safe (mark_safe st a) b = mark_safe (mark_safe st b) a.
Proof.
  unfold mark_safe. simpl. f_equal; [set_solver|].
  rewrite <-!list_fmap_compose. apply list_fmap_ext. intros i s _. simpl.
  apply sentence_mark_safe_comm.
Qed.

Lemma mark_mine_safe_comm (st : AI) (a b : Cell) :
  a ≠ b → mark_mine (mark_safe st b) a = mark_safe (mark_mine st a) b.
Proof.
  intros Hab. unfold mark_mine, mark_safe. simpl. f_equal.
  rewrite <-!list_fmap_compose. apply list_fmap_ext. intros i s _. simpl.
  by apply sentence_mark_mine_safe_comm.
Qed.

Lemma mark_mine_twice (st : AI) (a : Cell) :
  mark_mine (mark_mine st a) a = mark_mine st a.
Proof.
  unfold mark_mine. simpl. f_equal; [set_solver|].
  rewrite <-list_fmap_compose. apply list_fmap_ext. intros i s _. simpl.
  apply sentence_mark_mine_absent. rewrite sentence_mark_mine_cells. set_solver.
Qed.

Lemma mark_safe_twice (st : AI) (a : Cell) :
  mark_safe (mark_safe st a) a = mark_safe st a.
Proof.
  unfold mark_safe. simpl. f_equal; [set_solver|].
  rewrite <-list_fmap_compose. apply list_fmap_ext. intros i s _. simpl.
  apply sentence_mark_safe_absent. rewrite sentence_mark_safe_cells. set_solver.
Qed.

Lemma mark_mine_known_cell (st : AI) (a : Cell) :
  well_formed st → a ∈ mines st → mark_mine st a = st.
Proof.
  intros [_ Hcl] Ha. destruct st as [h w mv mi sa kb].
  unfold mark_mine. simpl in *. f_equal; [set_solver|].
  rewrite <-(list_fmap_id kb) at 2. apply list_fmap_ext.
  intros i s Hi. simpl. apply sentence_mark_mine_absent.
  apply list_elem_of_lookup_2 in Hi. specialize (Hcl s Hi). simpl in Hcl.
  set_solver.
Qed.

Lemma mark_safe_known_cell (st : AI) (a : Cell) :
  well_formed st → a ∈ safes st → mark_safe st a = st.
Proof.
  intros [_ Hcl] Ha. destruct st as [h w mv mi sa kb].
  unfold mark_safe. simpl in *. f_equal; [set_solver|].
  rewrite <-(list_fmap_id kb) at 2. apply list_fmap_ext.
  intros i s Hi. simpl. apply sentence_mark_safe_absent.
  apply list_elem_of_lookup_2 in Hi. specialize (Hcl s Hi). simpl in Hcl.
  set_solver.
Qed.

(** X6.  Marking a cell that is marked already changes nothing: a mark
    repeated at once leaves the state as the first mark left it, and in
    any state that calls on a fresh player reach, [mark_mine] of a cell of
    [mines] and [mark_safe] of a cell of [safes] leave the whole state as
    it is, however long ago the cell was marked.  Two [mark_mine] calls,
    or two [mark_safe] calls, give the same state in either order; and
    [mark_mine] of one cell and [mark_safe] of another cell give the same
    state in either order. *)
Theorem player_marks_idempotent_commute :
  ∀ (st : AI) (a b : Cell),
    mark_mine (mark_mine st a) a = mark_mine st a ∧
    mark_safe (mark_safe st a) a = mark_safe st a ∧
    (reachable st → a ∈ mines st → mark_mine st a = st) ∧
    (reachable st → a ∈ safes st → mark_safe st a = st) ∧
    mark_mine (mark_mine st a) b = mark_mine (mark_mine st b) a ∧
    mark_safe (mark_safe st a) b = mark_safe (mark_safe st b) a ∧
    (a ≠ b → mark_mine (mark_safe st b) a = mark_safe (mark_mine st a) b).
Proof.
  intros st a b. split_and!.
  - apply mark_mine_twice.
  - apply mark_safe_twice.
  - intros Hr%reachable_well_formed. by apply mark_mine_known_cell.
  - intros Hr%reachable_well_formed. by apply mark_safe_known_cell.
  - apply mark_mine_comm.
  - apply mark_safe_comm.
  - apply mark_mine_safe_comm.
Qed.

Lemma player_marks_idempotent_commute_witness :
  reachable flagging_state_before ∧
  ((0, 2) ∈ mines flagging_state_before ∧
   mark_mine flagging_state_before (0, 2) = flagging_state_before) ∧
  ((0, 1) ∈ safes flagging_state_before ∧
   mark_safe flagging_state_before (0, 1) = flagging_state_before).
Proof.
  unshelve refine
    (let Hr : reachable flagging_state_before :=
       ex_intro _ 1 (ex_intro _ 4 (ex_intro _ 10%nat
         (ex_intro _ flagging_calls_before flagging_run_before))) in
     let Hm : (0, 2) ∈ mines flagging_state_before := _ in
     let Hs : (0, 1) ∈ safes flagging_state_before := _ in
     let H := player_marks_idempotent_commute flagging_state_before
                (0, 2) (0, 2) in
     let H' := player_marks_idempotent_commute flagging_state_before
                 (0, 1) (0, 1) in
     conj Hr (conj (conj Hm (proj1 (proj2 (proj2 H)) Hr Hm))
                   (conj Hs (proj1 (proj2 (proj2 (proj2 H'))) Hr Hs)))).
  - by_evaluation.
  - by_evaluation.
Defined.

Lemma foldl_comm_perm {A B} (f : A → B → A) (l1 l2 : list B) :
  (∀ a x y, f (f a x) y = f (f a y) x) →
  l1 ≡ₚ l2 → ∀ a, foldl f a l1 = foldl f a l2.
Proof.
  intros Hf Hp. induction Hp as [|x l l' _ IH|x y l|l l' l'' _ IH1 _ IH2];
    intros a; simpl.
  - done.
  - apply IH.
  - by rewrite Hf.
  - by rewrite IH1.
Qed.

Lemma mark_new_mine_comm (p : AI * bool) (x y : Cell) :
  mark_new_mine (mark_new_mine p x) y = mark_new_mine (mark_new_mine p y) x.
Proof.
  destruct p as [st u]. destruct (decide (x = y)) as [->|Hxy]; [done|].
  destruct (decide (x ∈ mines st)) as [Hx|Hx],
           (decide (y ∈ mines st)) as [Hy|Hy].
  - by rewrite !mark_new_mine_known.
  - rewrite (mark_new_mine_known st u x Hx), (mark_new_mine_fresh st u y Hy).
    rewrite mark_new_mine_known; [done|]. simpl. set_solver.
  - rewrite (mark_new_mine_known st u y Hy), (mark_new_mine_fresh st u x Hx).
    rewrite mark_new_mine_known; [done|]. simpl. set_solver.
  - rewrite (mark_new_mine_fresh st u x Hx), (mark_new_mine_fresh st u y Hy).
    rewrite !mark_new_mine_fresh by (simpl; set_solver).
    by rewrite mark_mine_comm.
Qed.

Lemma mark_new_safe_comm (p : AI * bool) (x y : Cell) :
  mark_new_safe (mark_new_safe p x) y = mark_new_safe (mark_new_safe p y) x.
Proof.
  destruct p as [st u]. destruct (decide (x = y)) as [->|Hxy]; [done|].
  destruct (decide (x ∈ safes st)) as [Hx|Hx],
           (decide (y ∈ safes st)) as [Hy|Hy].
  - by rewrite !mark_new_safe_known.
  - rewrite (mark_new_safe_known st u x Hx), (mark_new_safe_fresh st u y Hy).
    rewrite mark_new_safe_known; [done|]. simpl. set_solver.
  - rewrite (mark_new_safe_known st u y Hy), (mark_new_safe_fresh st u x Hx).
    rewrite mark_new_safe_known; [done|]. simpl. set_solver.
  - rewrite (mark_new_safe_fresh st u x Hx), (mark_new_safe_fresh st u y Hy).
    rewrite !mark_new_safe_fresh by (simpl; set_solver).
    by rewrite mark_safe_comm.
Qed.

Lemma reduce_step_comm (st : AI) (acc : gset Cell * Z) (x y : Cell) :
  reduce_step st (reduce_step st acc x) y
  = reduce_step st (reduce_step st acc y) x.
Proof.
  unfold reduce_step.
  destruct (decide (x ∈ safes st)), (decide (y ∈ safes st)),
           (decide (x ∈ mines st)), (decide (y ∈ mines st));
    simpl; try done; f_equal; try set_solver; lia.
Qed.

(** X7.  The order in which Python iterates over [new_mines], over
    [new_safes] and over the cells of a sentence does not matter: the three
    loops of an iteration of [add_knowledge] leave the same state, the same
    [update_needed] and the same reduced sentence for any two orders of the
    same cells. *)
Theorem iteration_order_irrelevant :
  ∀ (l1 l2 : list Cell),
    l1 ≡ₚ l2 →
    (∀ p : AI * bool, foldl mark_new_mine p l1 = foldl mark_new_mine p l2) ∧
    (∀ p : AI * bool, foldl mark_new_safe p l1 = foldl mark_new_safe p l2) ∧
    (∀ (st : AI) (acc : gset Cell * Z),
       foldl (reduce_step st) acc l1 = foldl (reduce_step st) acc l2).
Proof.
  intros l1 l2 Hp. split_and!.
  - apply foldl_comm_perm; [apply mark_new_mine_comm|done].
  - apply foldl_comm_perm; [apply mark_new_safe_comm|done].
  - intros st. apply foldl_comm_perm; [apply reduce_step_comm|done].
Qed.

Lemma iteration_order_irrelevant_witness :
  [(1, 0); (1, 1)] ≡ₚ [(1, 1); ((1, 0) : Cell)] ∧
  foldl mark_new_mine (example_state, false) [(1, 0); (1, 1)]
  = foldl mark_new_mine (example_state, false) [(1, 1); (1, 0)].
Proof.
  unshelve refine
    (let H : [(1, 0); (1, 1)] ≡ₚ [(1, 1); ((1, 0) : Cell)] := perm_swap _ _ _ in
     conj H (proj1 (iteration_order_irrelevant _ _ H) (example_state, false))).
Defined.

(** ** What [add_knowledge] leaves, whatever its arguments *)

Lemma loop_marks_known_mine fuel st st' c :
  c ∈ collect Sentence.known_mines (knowledge st) →
  loop fuel st = Some st' → c ∈ mines st'.
Proof.
  intros Hc. destruct fuel as [|fuel]; [done|]. rewrite loop_step.
  assert (c ∈ mines (pass st).1) as Hs.
  { destruct (pass_frame st) as (_&_&_&H&_). rewrite H. set_solver. }
  destruct (pass st).2.
  - intros (_&_&H)%loop_grows. set_solver.
  - by intros [= <-].
Qed.

(** X8.  A call of [add_knowledge] that returns leaves the size of the
    board as it was, adds the probed cell and nothing else to [moves_made],
    and has the probed cell in [safes]. *)
Theorem add_knowledge_records_the_move :
  ∀ (st : AI) (cell : Cell) (count : Z) (fuel : nat) (st' : AI),
    add_knowledge fuel st cell count = Some st' →
    height st' = height st ∧ width st' = width st ∧
    moves_made st' = {[cell]} ∪ moves_made st ∧
    cell ∈ safes st'.
Proof.
  intros st cell count fuel st' Hrun. unfold add_knowledge in Hrun.
  destruct (loop_frame _ _ _ Hrun) as (H1&H2&H3).
  destruct (loop_grows _ _ _ Hrun) as (_&Hs&_).
  destruct (observe_frame st cell count) as (G1&G2&G3&G4&_).
  split_and!; [congruence|congruence|congruence|].
  apply Hs. rewrite G4. set_solver.
Qed.

Lemma add_knowledge_records_the_move_witness :
  add_knowledge 10 example_midstate (2, 0) 1 = Some example_state ∧
  height example_state = height example_midstate ∧
  width example_state = width example_midstate ∧
  moves_made example_state = {[ (2, 0) ]} ∪ moves_made example_midstate ∧
  (2, 0) ∈ safes example_state.
Proof.
  unshelve refine
    (let H : add_knowledge 10 example_midstate (2, 0) 1
             = Some example_state := _ in
     conj H (add_knowledge_records_the_move example_midstate (2, 0) 1 10
               example_state H)).
  vm_compute. reflexivity.
Defined.

(** X9.  Whatever the state and the arguments, also when the probes
    contradict each other, the knowledge that [add_knowledge] returns has
    no sentence without cells and no sentence with a cell of [safes] or of
    [mines]. *)
Theorem add_knowledge_leaves_tidy_knowledge :
  ∀ (st : AI) (cell : Cell) (count : Z) (fuel : nat) (st' : AI),
    add_knowledge fuel st cell count = Some st' →
    ∀ s : Sentence, s ∈ knowledge st' →
      cells s ≠ ∅ ∧ ∀ c : Cell, c ∈ cells s → c ∉ safes st' ∧ c ∉ mines st'.
Proof.
  intros st cell count fuel st' Hrun s Hs.
  destruct (loop_result_tidy _ _ _ Hrun s Hs) as [Hd Hne].
  split; [done|]. intros c Hc. set_solver.
Qed.

Lemma add_knowledge_leaves_tidy_knowledge_witness :
  ∃ st1 : AI,
    add_knowledge 10 (init 1 2) (0, 0) 2 = Some st1 ∧
    ∀ s : Sentence, s ∈ knowledge st1 →
      cells s ≠ ∅ ∧ ∀ c : Cell, c ∈ cells s → c ∉ safes st1 ∧ c ∉ mines st1.
Proof.
  exists {| height := 1; width := 2; moves_made := {[ (0, 0) ]}; mines := ∅;
            safes := {[ (0, 0) ]};
            knowledge := [mkSentence {[ (0, 1) ]} 2] |}.
  unshelve refine
    (let H : add_knowledge 10 (init 1 2) (0, 0) 2 = Some _ := _ in
     conj H (add_knowledge_leaves_tidy_knowledge (init 1 2) (0, 0) 2 10 _ H)).
  vm_compute. reflexivity.
Defined.

(** X10.  In a state that calls on a fresh player reach, the knowledge
    that [add_knowledge] returns is saturated: no sentence has count zero
    or a count equal to the number of its cells, so none gives a cell away,
    and for two sentences with the cells of one a strict subset of the
    cells of the other, the difference is in the knowledge whenever its
    count is between zero and the number of its cells. *)
Theorem add_knowledge_saturates :
  ∀ (st : AI) (cell : Cell) (n : Z) (fuel : nat) (st' : AI),
    reachable st →
    add_knowledge fuel st cell n = Some st' →
    (∀ s : Sentence, s ∈ knowledge st' →
       count s ≠ 0 ∧ count s ≠ len (cells s) ∧
       (Sentence.known_mines s).1 = ∅ ∧ (Sentence.known_safes s).1 = ∅) ∧
    (∀ s1 s2 : Sentence, s1 ∈ knowledge st' → s2 ∈ knowledge st' →
       cells s1 ⊂ cells s2 →
       0 ≤ count (derived s1 s2) ≤ len (cells (derived s1 s2)) →
       derived s1 s2 ∈ knowledge st').
Proof.
  intros st cell n fuel st' Hwf%reachable_well_formed Hrun.
  unfold add_knowledge in Hrun.
  pose proof (well_formed_observe st cell n Hwf) as [_ Hcl0].
  pose proof (loop_result_stable _ _ _ Hcl0 Hrun) as Hstable.
  pose proof (loop_result_tidy _ _ _ Hrun) as Htidy.
  assert ((mark_all st').2 = false ∧ infer (knowledge st') = []) as [Hm Hi].
  { assert ((pass st').2 = false) as Hf by (by rewrite Hstable).
    rewrite pass_flag in Hf.
    apply orb_false_iff in Hf as [Hf _].
    apply orb_false_iff in Hf as [Hmark _]. split; [done|].
    pose proof (pass_tidy_idle st' Htidy Hmark) as Hp.
    rewrite Hstable in Hp. injection Hp as _ Hp.
    symmetry in Hp. apply bool_decide_eq_false in Hp. by apply dec_stable in Hp. }
  split.
  - intros s Hs. destruct (Htidy s Hs) as [Hd Hne].
    assert ((Sentence.known_mines s).1 = ∅) as Hkm.
    { apply set_eq. intros c. split; [|set_solver]. intros Hc. exfalso.
      apply not_true_iff_false in Hm. apply Hm, mark_all_flag. left.
      exists c. split; [apply collect_elem; eauto|].
      apply known_mines_elem in Hc as [Hc _]. set_solver. }
    assert ((Sentence.known_safes s).1 = ∅) as Hks.
    { apply set_eq. intros c. split; [|set_solver]. intros Hc. exfalso.
      apply not_true_iff_false in Hm. apply Hm, mark_all_flag. right.
      exists c. split; [apply collect_elem; eauto|].
      apply known_safes_elem in Hc as [Hc _]. set_solver. }
    split_and!; [| |done|done].
    + intros H0. apply set_choose_L in Hne as [c Hc].
      assert (c ∈ (Sentence.known_safes s).1) as Hin
        by (by apply known_safes_elem).
      rewrite Hks in Hin. set_solver.
    + intros Hl. apply set_choose_L in Hne as [c Hc].
      assert (c ∈ (Sentence.known_mines s).1) as Hin.
      { apply known_mines_elem. split_and!; [done| |done].
        rewrite Hl. apply len_pos. set_solver. }
      rewrite Hkm in Hin. set_solver.
  - intros s1 s2 H1 H2 Hsub Hr.
    destruct (decide (derived s1 s2 ∈ knowledge st')) as [|Hn]; [done|].
    exfalso. assert (derived s1 s2 ∈ infer (knowledge st')) as Hin.
    { apply infer_elem. exists s1, s2. by split_and!. }
    rewrite Hi in Hin. by apply elem_of_nil in Hin.
Qed.

Lemma add_knowledge_saturates_witness :
  reachable example_midstate ∧
  add_knowledge 10 example_midstate (2, 0) 1 = Some example_state ∧
  ∀ s : Sentence, s ∈ knowledge example_state →
    count s ≠ 0 ∧ count s ≠ len (cells s) ∧
    (Sentence.known_mines s).1 = ∅ ∧ (Sentence.known_safes s).1 = ∅.
Proof.
  unshelve refine
    (let H0 : calls 10 (init 3 2) (take 2 example_probes)
              = Some example_midstate := _ in
     let H1 : reachable example_midstate :=
       ex_intro _ 3 (ex_intro _ 2 (ex_intro _ 10%nat
         (ex_intro _ (take 2 example_probes) H0))) in
     let H2 : add_knowledge 10 example_midstate (2, 0) 1
              = Some example_state := _ in
     conj H1 (conj H2
       (proj1 (add_knowledge_saturates example_midstate (2, 0) 1 10
                 example_state H1 H2)))).
  - vm_compute. reflexivity.
  - vm_compute. reflexivity.
Defined.

(** ** What the player concludes from truthful probes *)

(** X11.  When every call tells the truth about one board, every cell of
    [mines] is a mine of the board, no cell of [safes] and no move is a
    mine, and [make_safe_move] never returns a mine. *)
Theorem truthful_calls_conclude_the_truth :
  ∀ (h w : Z) (board : gset Cell) (fuel : nat) (ops : list Call) (st : AI),
    Forall (truthful h w board) ops →
    calls fuel (init h w) ops = Some st →
    mines st ⊆ board ∧ safes st ## board ∧ moves_made st ## board ∧
    ∀ c : Cell, (make_safe_move st).1 = Some c → c ∉ board.
Proof.
  intros h w board fuel ops st Hall Hrun.
  assert (agrees board st) as (Hm&Hs&Hmv&_).
  { eapply (agrees_calls h w board); [..|done]; try done. apply agrees_init. }
  split_and!; [done|done|set_solver|].
  unfold make_safe_move. simpl.
  intros c [Hc _]%first_unmoved_Some. apply set_iter_elem in Hc. set_solver.
Qed.

Lemma truthful_calls_conclude_the_truth_witness :
  Forall (truthful 3 2 example_board) example_probes ∧
  calls 10 (init 3 2) example_probes = Some example_state ∧
  mines example_state ⊆ example_board ∧
  safes example_state ## example_board ∧
  moves_made example_state ## example_board ∧
  ∀ c : Cell, (make_safe_move example_state).1 = Some c → c ∉ example_board.
Proof.
  split; [exact example_truthful|]. split; [exact example_run|].
  exact (truthful_calls_conclude_the_truth 3 2 example_board 10
           example_probes example_state example_truthful example_run).
Defined.

Lemma observe_undetermined (st : AI) (cell : Cell) (n : Z) :
  let st0 := observe st cell n in
  let N := neighbours (height st) (width st) cell in
  undetermined st cell ≠ ∅ →
  mkSentence (undetermined st cell) (n - len (N ∩ mines st)) ∈ knowledge st0.
Proof.
  intros st0 N Hne.
  destruct (recorded_observe cell n st) as (_&_&Hk).
  destruct (observe_frame st cell n) as (G1&G2&G3&G4&G5).
  fold st0 in Hk, G1, G2, G3, G4, G5.
  rewrite probe_sentence_closed in Hk. rewrite G1, G2, G3, G4, G5 in Hk.
  fold N in Hk. simpl in Hk.
  assert (N ∖ ({[cell]} ∪ moves_made st ∪ ({[cell]} ∪ safes st) ∪ mines st)
          = undetermined st cell) as Heq.
  { unfold undetermined. fold N. apply set_eq. intros c.
    rewrite !elem_of_difference, !elem_of_union, elem_of_singleton.
    split; [tauto|]. intros [Hc Hn]. split; [done|].
    intros [[[->|?]|[->|?]]|?]; try tauto;
      apply neighbours_elem in Hc; tauto. }
  rewrite Heq in Hk. by apply Hk.
Qed.

(** X12.  A probe whose count is the number of mines that the player
    knows already around the cell makes every other neighbour safe: when
    [add_knowledge] returns, all neighbours that were neither moves nor
    classified are in [safes]. *)
Theorem probe_without_new_mines_clears_neighbours :
  ∀ (st : AI) (cell : Cell) (n : Z) (fuel : nat) (st' : AI),
    n = len (neighbours (height st) (width st) cell ∩ mines st) →
    add_knowledge fuel st cell n = Some st' →
    undetermined st cell ⊆ safes st'.
Proof.
  intros st cell n fuel st' Hn Hrun c Hc. unfold add_knowledge in Hrun.
  eapply loop_marks_known_safe; [|done].
  apply collect_elem. eexists. split.
  - apply observe_undetermined. set_solver.
  - apply known_safes_elem. simpl. split; [done|lia].
Qed.

Lemma probe_without_new_mines_clears_neighbours_witness :
  ∃ st1 : AI,
    0 = len (neighbours (height (init 4 4)) (width (init 4 4)) (0, 0)
             ∩ mines (init 4 4)) ∧
    add_knowledge 10 (init 4 4) (0, 0) 0 = Some st1 ∧
    undetermined (init 4 4) (0, 0) ⊆ safes st1.
Proof.
  exists {| height := 4; width := 4; moves_made := {[ (0, 0) ]}; mines := ∅;
            safes := {[ (0, 0); (0, 1); (1, 0); (1, 1) ]};
            knowledge := [] |}.
  unshelve refine
    (let H1 : 0 = len (neighbours (height (init 4 4)) (width (init 4 4)) (0, 0)
                       ∩ mines (init 4 4)) := _ in
     let H2 : add_knowledge 10 (init 4 4) (0, 0) 0 = Some _ := _ in
     conj H1 (conj H2
       (probe_without_new_mines_clears_neighbours (init 4 4) (0, 0) 0 10 _
          H1 H2))).
  - vm_compute. reflexivity.
  - vm_compute. reflexivity.
Defined.

(** X13.  A probe that leaves as many mines to find as the cell has
    neighbours that are neither moves nor classified makes all these
    neighbours mines: when [add_knowledge] returns they are in [mines]. *)
Theorem probe_with_all_mines_flags_neighbours :
  ∀ (st : AI) (cell : Cell) (n : Z) (fuel : nat) (st' : AI),
    n - len (neighbours (height st) (width st) cell ∩ mines st)
      = len (undetermined st cell) →
    add_knowledge fuel st cell n = Some st' →
    undetermined st cell ⊆ mines st'.
Proof.
  intros st cell n fuel st' Hn Hrun c Hc. unfold add_knowledge in Hrun.
  eapply loop_marks_known_mine; [|done].
  apply collect_elem. eexists. split.
  - apply observe_undetermined. set_solver.
  - apply known_mines_elem. simpl. split_and!; [done| |done].
    rewrite Hn. apply len_pos. set_solver.
Qed.

Lemma probe_with_all_mines_flags_neighbours_witness :
  ∃ st1 : AI,
    1 - len (neighbours (height (init 1 2)) (width (init 1 2)) (0, 0)
             ∩ mines (init 1 2))
      = len (undetermined (init 1 2) (0, 0)) ∧
    add_knowledge 10 (init 1 2) (0, 0) 1 = Some st1 ∧
    undetermined (init 1 2) (0, 0) ⊆ mines st1.
Proof.
  exists {| height := 1; width := 2; moves_made := {[ (0, 0) ]};
            mines := {[ (0, 1) ]}; safes := {[ (0, 0) ]};
            knowledge := [] |}.
  unshelve refine
    (let H1 : 1 - len (neighbours (height (init 1 2)) (width (init 1 2)) (0, 0)
                       ∩ mines (init 1 2))
              = len (undetermined (init 1 2) (0, 0)) := _ in
     let H2 : add_knowledge 10 (init 1 2) (0, 0) 1 = Some _ := _ in
     conj H1 (conj H2
       (probe_with_all_mines_flags_neighbours (init 1 2) (0, 0) 1 10 _
          H1 H2))).
  - vm_compute. reflexivity.
  - vm_compute. reflexivity.
Defined.

(** ** Choosing a random move *)

Lemma range_elem (n i : Z) : i ∈ range n ↔ 0 ≤ i < n.
Proof. unfold range. rewrite elem_of_seqZ. lia. Qed.

Lemma available_moves_elem (st : AI) (c : Cell) :
  c ∈ available_moves st ↔
  (0 ≤ c.1 < height st ∧ 0 ≤ c.2 < width st) ∧
  c ∉ moves_made st ∧ c ∉ mines st.
Proof.
  unfold available_moves. rewrite list_elem_of_bind. split.
  - intros (i&(j&Hc&Hj%range_elem)%list_elem_of_bind&Hi%range_elem).
    repeat case_bool_decide; simpl in Hc;
      try (by apply elem_of_nil in Hc).
    apply list_elem_of_singleton in Hc as ->. simpl. tauto.
  - intros ((Hi&Hj)&Hmv&Hm). destruct c as [i j]. simpl in *.
    exists i. split; [|by apply range_elem].
    apply list_elem_of_bind. exists j. split; [|by apply range_elem].
    rewrite !bool_decide_eq_true_2 by done. simpl. left.
Qed.

Lemma available_moves_NoDup (st : AI) : NoDup (available_moves st).
Proof.
  unfold available_moves, range.
  assert (∀ i j c,
    c ∈ (if bool_decide ((i, j) ∉ moves_made st)
            && bool_decide ((i, j) ∉ mines st)
         then [(i, j)] else []) → c = (i, j)) as Hc.
  { intros i j c. case_match; [|by intros ?%elem_of_nil].
    by intros ->%list_elem_of_singleton. }
  apply NoDup_bind; [| |apply NoDup_seqZ].
  - intros i1 i2 c _ _ (j1&H1&_)%list_elem_of_bind (j2&H2&_)%list_elem_of_bind.
    apply Hc in H1, H2. congruence.
  - intros i _. apply NoDup_bind; [| |apply NoDup_seqZ].
    + intros j1 j2 c _ _ H1 H2. apply Hc in H1, H2. congruence.
    + intros j _. case_match; [apply NoDup_singleton|apply NoDup_nil_2].
Qed.

(** X14.  [make_random_move] leaves the player as it was.  A cell that it
    returns is on the board, is not a move and is not a known mine; every
    such cell is returned for exactly one draw of the generator; and
    nothing is returned, whatever the draw, exactly when every cell of the
    board is a move or a known mine. *)
Theorem make_random_move_spec :
  ∀ st : AI,
    (∀ k : nat, (make_random_move k st).2 = st) ∧
    (∀ (k : nat) (c : Cell), (make_random_move k st).1 = Some c →
       (0 ≤ c.1 < height st ∧ 0 ≤ c.2 < width st) ∧
       c ∉ moves_made st ∧ c ∉ mines st) ∧
    (∀ k : nat, (k < length (available_moves st))%nat →
       is_Some (make_random_move k st).1) ∧
    (∀ c : Cell,
       (0 ≤ c.1 < height st ∧ 0 ≤ c.2 < width st) →
       c ∉ moves_made st → c ∉ mines st →
       ∃ k : nat, (k < length (available_moves st))%nat ∧
         (make_random_move k st).1 = Some c ∧
         ∀ k' : nat, (make_random_move k' st).1 = Some c → k' = k) ∧
    ((∀ k : nat, (make_random_move k st).1 = None) ↔
     ∀ c : Cell, (0 ≤ c.1 < height st ∧ 0 ≤ c.2 < width st) →
       c ∈ moves_made st ∨ c ∈ mines st).
Proof.
  intros st.
  assert (∀ k, (make_random_move k st).1 = available_moves st !! k) as Hfst.
  { intros k. unfold make_random_move.
    destruct (available_moves st) eqn:E; simpl; [|done].
    by rewrite lookup_nil. }
  split_and!.
  - intros k. unfold make_random_move. by destruct (available_moves st).
  - intros k c. rewrite Hfst. intros Hc%list_elem_of_lookup_2.
    by apply available_moves_elem.
  - intros k Hk. rewrite Hfst. by apply lookup_lt_is_Some_2.
  - intros c Hg Hmv Hm.
    assert (c ∈ available_moves st) as [k Hk]%list_elem_of_lookup_1
      by (by apply available_moves_elem).
    exists k. split_and!.
    + by eapply lookup_lt_Some.
    + by rewrite Hfst.
    + intros k'. rewrite Hfst. intros Hk'.
      eapply NoDup_lookup; [apply available_moves_NoDup|done..].
  - split.
    + intros Hnone c Hg.
      destruct (decide (c ∈ moves_made st)) as [|Hmv]; [by left|].
      destruct (decide (c ∈ mines st)) as [|Hm]; [by right|].
      exfalso.
      assert (c ∈ available_moves st) as [k Hk]%list_elem_of_lookup_1
        by (by apply available_moves_elem).
      specialize (Hnone k). rewrite Hfst in Hnone. congruence.
    + intros Hall k. rewrite Hfst.
      destruct (available_moves st !! k) as [c|] eqn:E; [|done].
      apply list_elem_of_lookup_2, available_moves_elem in E as (Hg&Hmv&Hm).
      destruct (Hall c Hg); done.
Qed.

(** ** The placement of the mines *)

Lemma place_unfold (h w target : Z) (draws : list Cell)
    (mines : gset Cell) (board : list (list bool)) :
  place h w target draws mines board =
  if bool_decide (len mines = target) then Placed mines board
  else if bool_decide (h ≤ 0 ∨ w ≤ 0) then ValueError
  else
    match draws with
    | [] => Pending
    | (i, j) :: draws =>
        if bool_decide (0 ≤ i < h ∧ 0 ≤ j < w) then
          match board_get board i j with
          | Some false =>
              place h w target draws ({[(i, j)]} ∪ mines) (board_set board i j)
          | Some true => place h w target draws mines board
          | None => BadDraw
          end
        else BadDraw
    end.
Proof. by destruct draws. Qed.

Lemma empty_board_of (h w : Z) : board_of h w ∅ (empty_board h w).
Proof.
  unfold board_of, empty_board. split_and!.
  - apply length_replicate.
  - apply Forall_replicate, length_replicate.
  - set_solver.
  - intros i j Hi Hj. unfold board_get.
    rewrite lookup_replicate_2 by lia. simpl.
    rewrite lookup_replicate_2 by lia.
    by rewrite bool_decide_eq_false_2 by set_solver.
Qed.

Lemma board_set_of (h w : Z) (mines : gset Cell) (board : list (list bool))
    (i j : Z) :
  0 ≤ i < h → 0 ≤ j < w → board_of h w mines board →
  board_of h w ({[(i, j)]} ∪ mines) (board_set board i j).
Proof.
  intros Hi Hj (Hlen&Hrows&Hin&Hget). unfold board_of, board_set. split_and!.
  - by rewrite length_alter.
  - apply Forall_alter; [done|]. intros row _ Hrow. by rewrite length_insert.
  - intros c [->%elem_of_singleton|Hc]%elem_of_union; [done|by apply Hin].
  - intros i' j' Hi' Hj'. specialize (Hget i' j' Hi' Hj').
    unfold board_get in *.
    destruct (decide (i' = i)) as [->|Hne].
    + rewrite list_lookup_alter_eq.
      destruct (board !! Z.to_nat i) as [row|] eqn:Erow; [|done].
      simpl in *.
      assert (length row = Z.to_nat w) as Hrow.
      { rewrite Forall_lookup in Hrows. by eapply Hrows. }
      destruct (decide (j' = j)) as [->|Hnej].
      * rewrite list_lookup_insert_eq by lia.
        by rewrite bool_decide_eq_true_2 by set_solver.
      * rewrite list_lookup_insert_ne by lia. rewrite Hget. f_equal.
        apply bool_decide_ext. set_solver.
    + rewrite list_lookup_alter_ne by lia. rewrite Hget. f_equal.
      apply bool_decide_ext. set_solver.
Qed.

Lemma place_board_of (h w target : Z) (draws : list Cell)
    (mines : gset Cell) (board : list (list bool))
    (mines' : gset Cell) (board' : list (list bool)) :
  board_of h w mines board →
  place h w target draws mines board = Placed mines' board' →
  board_of h w mines' board' ∧ len mines' = target.
Proof.
  revert mines board. induction draws as [|[i j] draws IH];
    intros mines board Hb; rewrite place_unfold.
  - case_bool_decide; [by intros [= <- <-]|]. by case_bool_decide.
  - case_bool_decide; [by intros [= <- <-]|].
    case_bool_decide; [done|]. case_bool_decide as Hij; [|done].
    destruct (board_get board i j) as [[|]|]; [by apply IH| |done].
    apply IH. apply board_set_of; [tauto|tauto|done].
Qed.

Lemma place_outcome (h w target : Z) (draws : list Cell)
    (mines : gset Cell) (board : list (list bool)) :
  0 < h → 0 < w → board_of h w mines board →
  Forall (λ c, 0 ≤ c.1 < h ∧ 0 ≤ c.2 < w) draws →
  (∃ mines' board', place h w target draws mines board = Placed mines' board')
  ∨ place h w target draws mines board = Pending.
Proof.
  intros Hh Hw. revert mines board. induction draws as [|[i j] draws IH];
    intros mines board Hb Hd; rewrite place_unfold.
  - case_bool_decide; [left; eauto|].
    rewrite bool_decide_eq_false_2 by lia. by right.
  - case_bool_decide; [left; eauto|].
    rewrite bool_decide_eq_false_2 by lia.
    apply Forall_cons in Hd as [Hij Hd]. simpl in Hij.
    rewrite bool_decide_eq_true_2 by done.
    destruct Hb as (Hlen&Hrows&Hin&Hget).
    rewrite (Hget i j) by tauto.
    destruct (bool_decide ((i, j) ∈ mines)).
    + by apply IH.
    + apply IH; [|done]. apply board_set_of; [tauto..|done].
Qed.

Lemma place_no_value_error (h w target : Z) (draws : list Cell)
    (mines : gset Cell) (board : list (list bool)) :
  0 < h → 0 < w → place h w target draws mines board ≠ ValueError.
Proof.
  intros Hh Hw. revert mines board. induction draws as [|[i j] draws IH];
    intros mines board; rewrite place_unfold.
  - case_bool_decide; [done|]. by rewrite bool_decide_eq_false_2 by lia.
  - case_bool_decide; [done|]. rewrite bool_decide_eq_false_2 by lia.
    case_bool_decide; [|done].
    destruct (board_get board i j) as [[|]|]; [apply IH..|done].
Qed.

Lemma size_list_to_set_le (l : list Cell) :
  (size (list_to_set l : gset Cell) ≤ length l)%nat.
Proof.
  induction l as [|c l IH]; [rewrite list_to_set_nil, size_empty; done|].
  rewrite list_to_set_cons, size_union_alt, size_singleton. simpl.
  assert (size (list_to_set l ∖ {[c]} : gset Cell) ≤ size (list_to_set l : gset Cell))%nat
    by (apply subseteq_size; set_solver).
  lia.
Qed.

Lemma length_bind_const {A B} (f : A → list B) (m : nat) (l : list A) :
  (∀ x, length (f x) = m) → length (l ≫= f) = (length l * m)%nat.
Proof.
  intros Hf. induction l as [|x l IH]; [done|].
  csimpl. rewrite length_app, Hf, IH. lia.
Qed.

Lemma grid_length (h w : Z) :
  length (grid h w) = (Z.to_nat h * Z.to_nat w)%nat.
Proof.
  unfold grid, range.
  rewrite (length_bind_const _ (Z.to_nat w)).
  - by rewrite length_seqZ.
  - intros i. rewrite (length_bind_const _ 1%nat) by done.
    rewrite length_seqZ. lia.
Qed.

Lemma grid_elem (h w : Z) (c : Cell) :
  c ∈ grid h w ↔ 0 ≤ c.1 < h ∧ 0 ≤ c.2 < w.
Proof.
  unfold grid. rewrite list_elem_of_bind. split.
  - intros (i&(j&->%list_elem_of_singleton&Hj%range_elem)%list_elem_of_bind
            &Hi%range_elem). done.
  - intros [Hi Hj]. destruct c as [i j]. simpl in *.
    exists i. split; [|by apply range_elem].
    apply list_elem_of_bind. exists j. split; [left|by apply range_elem].
Qed.

Lemma board_of_len (h w : Z) (mines : gset Cell) (board : list (list bool)) :
  board_of h w mines board → 0 ≤ len mines ≤ Z.max 0 h * Z.max 0 w.
Proof.
  intros (_&_&Hin&_). split; [apply len_nonneg|].
  assert (mines ⊆ list_to_set (grid h w)) as Hsub%subseteq_size.
  { intros c Hc. apply elem_of_list_to_set, grid_elem. by apply Hin. }
  pose proof (size_list_to_set_le (grid h w)) as Hle.
  rewrite grid_length in Hle. unfold len.
  assert (Z.of_nat (Z.to_nat h * Z.to_nat w) = Z.max 0 h * Z.max 0 w) by lia.
  lia.
Qed.

(** X15.  When [Minesweeper.__init__] returns, [self.mines] has exactly
    the number of mines asked for, all on the board; the board has
    [height] rows of [width] entries; and [self.board[i][j]] is true
    exactly for the cells of [self.mines], also when a cell was drawn more
    than once. *)
Theorem new_game_places_the_mines :
  ∀ (h w target : Z) (draws : list Cell)
    (mines : gset Cell) (board : list (list bool)),
    new_game h w target draws = Placed mines board →
    len mines = target ∧
    length board = Z.to_nat h ∧
    (∀ row, row ∈ board → length row = Z.to_nat w) ∧
    (∀ c : Cell, c ∈ mines → 0 ≤ c.1 < h ∧ 0 ≤ c.2 < w) ∧
    (∀ i j : Z, 0 ≤ i < h → 0 ≤ j < w →
       board_get board i j = Some (bool_decide ((i, j) ∈ mines))).
Proof.
  intros h w target draws mines board Hrun. unfold new_game in Hrun.
  destruct (place_board_of _ _ _ _ _ _ _ _ (empty_board_of h w) Hrun)
    as [(Hlen&Hrows&Hin&Hget) Hn].
  split_and!; try done. intros row Hrow. rewrite Forall_forall in Hrows.
  by apply Hrows.
Qed.

Lemma new_game_places_the_mines_witness :
  new_game 1 2 2 [(0, 1); (0, 1); (0, 0)]
    = Placed {[ (0, 0); (0, 1) ]} [[true; true]] ∧
  len ({[ (0, 0); (0, 1) ]} : gset Cell) = 2 ∧
  length [[true; true]] = Z.to_nat 1 ∧
  (∀ row, row ∈ [[true; true]] → length row = Z.to_nat 2) ∧
  (∀ c : Cell, c ∈ ({[ (0, 0); (0, 1) ]} : gset Cell) →
     0 ≤ c.1 < 1 ∧ 0 ≤ c.2 < 2) ∧
  (∀ i j : Z, 0 ≤ i < 1 → 0 ≤ j < 2 →
     board_get [[true; true]] i j
     = Some (bool_decide ((i, j) ∈ ({[ (0, 0); (0, 1) ]} : gset Cell)))).
Proof.
  unshelve refine
    (let H : new_game 1 2 2 [(0, 1); (0, 1); (0, 0)]
             = Placed {[ (0, 0); (0, 1) ]} [[true; true]] := _ in
     conj H (new_game_places_the_mines 1 2 2 _ _ _ H)).
  vm_compute. reflexivity.
Defined.

(** X16.  When more mines are asked for than the board has cells, or a
    negative number, [Minesweeper.__init__] never returns: on a board with
    cells the loop is still running after any number of draws. *)
Theorem new_game_with_too_many_mines_never_returns :
  ∀ (h w target : Z) (draws : list Cell),
    target < 0 ∨ Z.max 0 h * Z.max 0 w < target →
    (∀ mines board, new_game h w target draws ≠ Placed mines board) ∧
    (0 < h → 0 < w → Forall (λ c, 0 ≤ c.1 < h ∧ 0 ≤ c.2 < w) draws →
     new_game h w target draws = Pending).
Proof.
  intros h w target draws Ht.
  assert (∀ mines board, new_game h w target draws ≠ Placed mines board) as Hn.
  { intros mines board Hrun. unfold new_game in Hrun.
    destruct (place_board_of _ _ _ _ _ _ _ _ (empty_board_of h w) Hrun)
      as [Hb Hlen].
    apply board_of_len in Hb. lia. }
  split; [done|]. intros Hh Hw Hd.
  destruct (place_outcome h w target draws ∅ (empty_board h w) Hh Hw
              (empty_board_of h w) Hd) as [(m&b&Hp)|Hp]; [|done].
  by apply Hn in Hp.
Qed.

Lemma new_game_with_too_many_mines_never_returns_witness :
  (3 < 0 ∨ Z.max 0 1 * Z.max 0 2 < 3) ∧
  (∀ mines board,
     new_game 1 2 3 [(0, 0); (0, 1); (0, 0)] ≠ Placed mines board) ∧
  (0 < 1 → 0 < 2 →
   Forall (λ c : Cell, 0 ≤ c.1 < 1 ∧ 0 ≤ c.2 < 2) [(0, 0); (0, 1); (0, 0)] →
   new_game 1 2 3 [(0, 0); (0, 1); (0, 0)] = Pending).
Proof.
  unshelve refine
    (let H : 3 < 0 ∨ Z.max 0 1 * Z.max 0 2 < 3 := or_intror _ in
     conj H (new_game_with_too_many_mines_never_returns 1 2 3
               [(0, 0); (0, 1); (0, 0)] H)).
  vm_compute. reflexivity.
Defined.

(** X17.  Asked for no mine, [Minesweeper.__init__] returns at once with
    the board of [False] and draws nothing; and it raises [ValueError],
    from [random.randrange], exactly when a mine is asked for and the board
    has no cell. *)
Theorem new_game_edge_cases :
  ∀ (h w target : Z) (draws : list Cell),
    new_game h w 0 draws = Placed ∅ (empty_board h w) ∧
    (new_game h w target draws = ValueError ↔
     target ≠ 0 ∧ (h ≤ 0 ∨ w ≤ 0)).
Proof.
  intros h w target draws. unfold new_game. split.
  - rewrite place_unfold. by rewrite bool_decide_eq_true_2 by done.
  - split.
    + intros Hv. split.
      * intros ->. rewrite place_unfold in Hv.
        by rewrite bool_decide_eq_true_2 in Hv by done.
      * destruct (decide (h ≤ 0 ∨ w ≤ 0)) as [|Hn]; [done|]. exfalso.
        by apply (place_no_value_error h w target draws ∅ (empty_board h w));
          [lia|lia|].
    + intros [Ht Hhw]. rewrite place_unfold.
      rewrite bool_decide_eq_false_2.
      * by rewrite bool_decide_eq_true_2 by done.
      * intros H. apply Ht. rewrite <-H. done.
Qed.
